(** * MoodQuiz: the text-to-mood core of [services/ml/main.py]

    A shallow embedding of the deterministic part of the service: the
    tokenizer, the VAD lexicon loader, the longest-phrase-first matcher with
    its aggregation, the two mood projections, the blender and the
    [infer_text] route.

    Conventions of the embedding.
    - A Python [float] is an exact rational ([Q]); [round(x, 4)] is rounding
      to the nearest multiple of 1/10000, ties to the even multiple, as
      Python's [round] does.  NaN and infinities have no counterpart.
    - A Python [str] is a [string] of ASCII characters.
    - A Python [dict] that the code iterates over is an association list in
      insertion order with unique keys ([dict_set] overwrites in place, as
      Python does); the lexicon index and the [Counter], which are only
      looked up, are [gmap]s.
    - The lexicon file is given as the list of rows [csv.DictReader] yields,
      each numeric cell already passed through [float] ([None] when that
      raises).  The classifier is a parameter of [infer_text]. *)

From Stdlib Require Import QArith Qround Qminmax Lqa Lia ZArith String Ascii List.
From stdpp Require Import gmap strings list fin_maps.

Local Open Scope Q_scope.

(** ** Numbers *)

(** [round(x)] to an integer, ties to even. *)
Definition round_half_even (x : Q) : Z :=
  let f := Qfloor x in
  match Qcompare (x - inject_Z f) (1 # 2) with
  | Lt => f
  | Gt => (f + 1)%Z
  | Eq => if Z.even f then f else (f + 1)%Z
  end.

(** [round(x, 4)] *)
Definition round4 (x : Q) : Q := round_half_even (x * 10000) # 10000.

(** [max(a, b)] and [min(a, b)] of Python return the first argument unless
    the second is strictly larger (smaller); [Qmax] and [Qmin] do the same. *)
Definition _norm01 (x : Q) : Q := Qmax 0 (Qmin 1 ((x + 1) / 2)).

(** ** Strings *)

Definition ascii_lower (c : ascii) : ascii :=
  let n := nat_of_ascii c in
  if ((65 <=? n) && (n <=? 90))%nat then ascii_of_nat (n + 32) else c.

(** [s.lower()] *)
Fixpoint lower (s : string) : string :=
  match s with
  | EmptyString => EmptyString
  | String c s' => String (ascii_lower c) (lower s')
  end.

(** [str.isspace] on one ASCII character: TAB..CR, FS..US and the space. *)
Definition is_space (c : ascii) : bool :=
  let n := nat_of_ascii c in
  (((9 <=? n) && (n <=? 13)) || ((28 <=? n) && (n <=? 32)))%nat.

Fixpoint lstrip (s : string) : string :=
  match s with
  | EmptyString => EmptyString
  | String c s' => if is_space c then lstrip s' else s
  end.

Fixpoint rstrip (s : string) : string :=
  match s with
  | EmptyString => EmptyString
  | String c s' =>
      match rstrip s' with
      | EmptyString => if is_space c then EmptyString else String c EmptyString
      | r => String c r
      end
  end.

(** [s.strip()] *)
Definition strip (s : string) : string := rstrip (lstrip s).

(** [sep.join(l)] *)
Fixpoint join (sep : string) (l : list string) : string :=
  match l with
  | [] => EmptyString
  | [x] => x
  | x :: l' => x +:+ sep +:+ join sep l'
  end.

(** The character class [[a-z']] of [_word_re]. *)
Definition is_word_char (c : ascii) : bool :=
  let n := nat_of_ascii c in
  (((97 <=? n) && (n <=? 122)) || (n =? 39))%nat.

Definition flush (cur : string) : list string :=
  match cur with
  | EmptyString => []
  | _ => [cur]
  end.

(** [_word_re.findall]: the maximal runs of [[a-z']], left to right; [cur]
    is the run being read. *)
Fixpoint findall_from (cur : string) (s : string) : list string :=
  match s with
  | EmptyString => flush cur
  | String c s' =>
      if is_word_char c
      then findall_from (cur +:+ String c EmptyString) s'
      else flush cur ++ findall_from EmptyString s'
  end.

Definition _word_re_findall (s : string) : list string :=
  findall_from EmptyString s.

Definition tokenize (text : string) : list string :=
  map lower (_word_re_findall (lower text)).

(** ** Dictionaries in insertion order *)

Fixpoint dict_get {V : Type} (d : list (string * V)) (k : string) : option V :=
  match d with
  | [] => None
  | (k', v) :: d' => if String.eqb k k' then Some v else dict_get d' k
  end.

(** [d[k] = v]: an existing key keeps its place, a new one goes last. *)
Fixpoint dict_set {V : Type} (d : list (string * V)) (k : string) (v : V)
  : list (string * V) :=
  match d with
  | [] => [(k, v)]
  | (k', v') :: d' =>
      if String.eqb k k' then (k, v) :: d' else (k', v') :: dict_set d' k v
  end.

Definition dict_keys {V : Type} (d : list (string * V)) : list string :=
  map fst d.

(** ** The lexicon *)

Definition VAD : Type := Q * Q * Q.

(** The shape of [_index_by_first]: first token, then phrase length, then
    the phrase itself. *)
Abbreviation lexicon_index := (gmap string (gmap nat (gmap (list string) VAD))).

(** One row of the CSV file: [row.get("term")] and the outcome of [float]
    on the three numeric cells ([None]: a missing cell or a [float] that
    raises, both caught by the loader). *)
Record csv_row := {
  row_term : option string;
  row_valence : option Q;
  row_arousal : option Q;
  row_dominance : option Q
}.

Definition _max_ngram : nat := 4.

(** The module-level state: [_term_dict] and [_index_by_first]. *)
Record globals := {
  _term_dict : gmap string VAD;
  _index_by_first : lexicon_index
}.

Definition initial_globals : globals :=
  {| _term_dict := ∅; _index_by_first := ∅ |}.

(** [index_by_first[first][L][toks] = e] on the nested [defaultdict]. *)
Definition index_insert (idx : lexicon_index)
    (first : string) (L : nat) (toks : list string) (e : VAD)
  : lexicon_index :=
  let by_len := default ∅ (idx !! first) in
  let by_toks := default ∅ (by_len !! L) in
  <[first := <[L := <[toks := e]> by_toks]> by_len]> idx.

(** The body of the loop over the rows in [load_gitlab_vad]. *)
Definition load_row
    (acc : gmap string VAD * lexicon_index)
    (row : csv_row)
  : gmap string VAD * lexicon_index :=
  let term_raw := lower (strip (default EmptyString (row_term row))) in
  match term_raw with
  | EmptyString => acc
  | _ =>
      let toks := tokenize term_raw in
      match toks with
      | [] => acc
      | first :: _ =>
          match row_valence row, row_arousal row, row_dominance row with
          | Some v, Some a, Some d =>
              let e := (_norm01 v, _norm01 a, _norm01 d) in
              let key := join " " toks in
              let L := length toks in
              (<[key := e]> (fst acc),
               if (L <=? _max_ngram)%nat
               then index_insert (snd acc) first L toks e
               else snd acc)
          | _, _, _ => acc
          end
      end
  end.

(** [load_gitlab_vad()]: nothing to do once [_term_dict] is non-empty. *)
Definition load_gitlab_vad (rows : list csv_row) (g : globals) : globals :=
  if (size (_term_dict g) =? 0)%nat
  then
    let built := foldl load_row (∅, ∅) rows in
    {| _term_dict := fst built; _index_by_first := snd built |}
  else g.

(** ** The phrase matcher *)

(** [_index_by_first[first][L].get(slice_t)], reached only when [first] is a
    key of the index.  Reading a missing length from the inner [defaultdict]
    leaves an empty dictionary behind; no lookup can observe it. *)
Definition index_get (by_len : gmap nat (gmap (list string) VAD))
    (L : nat) (slice_t : list string) : option VAD :=
  default ∅ (by_len !! L) !! slice_t.

(** The loop [for L in range(min(_max_ngram, n - i), 0, -1)], entered at
    length [L]: the hit, if any, with its length. *)
Fixpoint try_lengths (idx : lexicon_index)
    (toks : list string) (i : nat) (first : string) (L : nat)
  : option (nat * VAD) :=
  match L with
  | O => None
  | S L' =>
      match idx !! first with
      | None => None
      | Some by_len =>
          match index_get by_len L (take L (drop i toks)) with
          | Some entry => Some (L, entry)
          | None => try_lengths idx toks i first L'
          end
      end
  end.

(** The variables of the [while] loop. *)
Record scan_state := {
  pos : nat;
  counts : gmap string nat;
  matches : list (string * VAD)
}.

Definition scan_init : scan_state :=
  {| pos := 0; counts := ∅; matches := [] |}.

(** One iteration of the body of [while i < n].  The loop only runs it with
    [i < n], where [toks[i]] exists. *)
Definition scan_step (idx : lexicon_index)
    (toks : list string) (st : scan_state) : scan_state :=
  let i := pos st in
  let n := length toks in
  match toks !! i with
  | None => st
  | Some first =>
      match try_lengths idx toks i first (Nat.min _max_ngram (n - i)) with
      | Some (L, entry) =>
          let term_key := join " " (take L (drop i toks)) in
          {| pos := i + L;
             counts := <[term_key := S (default 0%nat (counts st !! term_key))]>
                         (counts st);
             matches := matches st ++ [(term_key, entry)] |}
      | None =>
          {| pos := i + 1; counts := counts st; matches := matches st |}
      end
  end.

(** The [while] loop, run for at most [fuel] iterations. *)
Fixpoint scan_from (idx : lexicon_index)
    (toks : list string) (fuel : nat) (st : scan_state) : scan_state :=
  match fuel with
  | O => st
  | S fuel' =>
      if (pos st <? length toks)%nat
      then scan_from idx toks fuel' (scan_step idx toks st)
      else st
  end.

(** Every iteration consumes a token, so [length toks] iterations suffice
    ([scan_from_end] below). *)
Definition scan (idx : lexicon_index)
    (toks : list string) : scan_state :=
  scan_from idx toks (length toks) scan_init.

(** The values of the loop variables each time the loop condition is
    tested, first to last.  The source keeps no such list; it is what the
    statements about the whole run speak of. *)
Fixpoint scan_trace (idx : lexicon_index)
    (toks : list string) (fuel : nat) (st : scan_state) : list scan_state :=
  match fuel with
  | O => [st]
  | S fuel' =>
      if (pos st <? length toks)%nat
      then st :: scan_trace idx toks fuel' (scan_step idx toks st)
      else [st]
  end.

(** The token ranges [(start, length)] of the iterations that recorded a
    match, read off a trace. *)
Fixpoint match_spans (tr : list scan_state) : list (nat * nat) :=
  match tr with
  | st :: ((st' :: _) as tr') =>
      if (length (matches st) <? length (matches st'))%nat
      then (pos st, pos st' - pos st)%nat :: match_spans tr'
      else match_spans tr'
  | _ => []
  end.

Definition Q_of_nat (c : nat) : Q := inject_Z (Z.of_nat c).

(** The accumulation loop [for term_key, (v,a,d) in matches]. *)
Definition add_match (counts : gmap string nat) (acc : Q * Q * Q * Q)
    (m : string * VAD) : Q * Q * Q * Q :=
  let '(sum_w, sum_v, sum_a, sum_d) := acc in
  let '(term_key, (v, a, d)) := m in
  let c := Q_of_nat (default 0%nat (counts !! term_key)) in
  (sum_w + c, sum_v + v * c, sum_a + a * c, sum_d + d * c).

(** Lines 169-185 of [vad_from_text_gitlab]. *)
Definition aggregate (counts : gmap string nat) (matches : list (string * VAD))
  : option VAD :=
  match matches with
  | [] => None
  | _ =>
      let '(sum_w, sum_v, sum_a, sum_d) :=
        foldl (add_match counts) (0, 0, 0, 0) matches in
      if Qeq_bool sum_w 0 then None
      else Some (round4 (sum_v / sum_w), round4 (sum_a / sum_w),
                 round4 (sum_d / sum_w))
  end.

(** The matcher on a loaded index. *)
Definition vad_of_tokens (idx : lexicon_index)
    (toks : list string) : option VAD :=
  match toks with
  | [] => None
  | _ => let st := scan idx toks in aggregate (counts st) (matches st)
  end.

Definition vad_from_text_gitlab (rows : list csv_row) (g : globals)
    (text : string) : globals * option VAD :=
  let g' := load_gitlab_vad rows g in
  (g', vad_of_tokens (_index_by_first g') (tokenize text)).

(** ** Moods *)

Definition EMOTION_TO_MOOD : list (string * list (string * Q)) :=
  [ ("joy",        [("valence", 0.9);  ("energy", 0.7); ("focus", 0.4); ("danceability", 0.7); ("tempo_pref", 0.75)]);
    ("love",       [("valence", 0.85); ("energy", 0.6); ("focus", 0.5); ("danceability", 0.6); ("tempo_pref", 0.65)]);
    ("admiration", [("valence", 0.8);  ("energy", 0.6); ("focus", 0.6); ("danceability", 0.5); ("tempo_pref", 0.65)]);
    ("surprise",   [("valence", 0.7);  ("energy", 0.8); ("focus", 0.4); ("danceability", 0.6); ("tempo_pref", 0.8)]);
    ("anger",      [("valence", 0.1);  ("energy", 0.9); ("focus", 0.3); ("danceability", 0.4); ("tempo_pref", 0.85)]);
    ("sadness",    [("valence", 0.1);  ("energy", 0.2); ("focus", 0.6); ("danceability", 0.3); ("tempo_pref", 0.35)]);
    ("fear",       [("valence", 0.15); ("energy", 0.6); ("focus", 0.5); ("danceability", 0.3); ("tempo_pref", 0.6)]);
    ("disgust",    [("valence", 0.2);  ("energy", 0.5); ("focus", 0.4); ("danceability", 0.3); ("tempo_pref", 0.55)]);
    ("optimism",   [("valence", 0.8);  ("energy", 0.6); ("focus", 0.6); ("danceability", 0.6); ("tempo_pref", 0.65)]);
    ("curiosity",  [("valence", 0.7);  ("energy", 0.5); ("focus", 0.7); ("danceability", 0.5); ("tempo_pref", 0.55)]);
    ("nervous",    [("valence", 0.24); ("energy", 0.79); ("focus", 0.38); ("danceability", 0.35); ("tempo_pref", 0.65)]);
    ("neutral",    [("valence", 0.5);  ("energy", 0.5); ("focus", 0.5); ("danceability", 0.5); ("tempo_pref", 0.5)]) ].

Definition DEFAULT_MOOD : list (string * Q) :=
  [("valence", 0.5); ("energy", 0.5); ("focus", 0.5); ("danceability", 0.5);
   ("tempo_pref", 0.5)].

(** [d.get(k, 0.5)] *)
Definition get_or_half (d : list (string * Q)) (k : string) : Q :=
  default 0.5 (dict_get d k).

Definition blend_moods (a b : list (string * Q)) (wa : Q) : list (string * Q) :=
  let wb := 1 - wa in
  foldl (fun out k =>
           dict_set out k (round4 (get_or_half a k * wa + get_or_half b k * wb)))
        [] (dict_keys DEFAULT_MOOD).

Definition music_mood_from_vad (v a d : Q) : list (string * Q) :=
  let valence := v in
  let energy := a in
  let focus := Qmax 0 (Qmin 1 ((1 - 0.7 * a) + 0.2 * d)) in
  let danceability := Qmax 0 (Qmin 1 (0.35 + 0.45 * a + 0.20 * Qmax 0 (v - 0.5))) in
  let tempo_pref := a in
  [("valence", round4 valence); ("energy", round4 energy);
   ("focus", round4 focus); ("danceability", round4 danceability);
   ("tempo_pref", round4 tempo_pref)].

(** [sum(emotions.values())] *)
Definition emotion_sum (emotions : list (string * Q)) : Q :=
  foldl (fun acc kv => acc + snd kv) 0 emotions.

(** [sum(emotions.values()) or 1.0] *)
Definition emotion_totalsum (emotions : list (string * Q)) : Q :=
  let s := emotion_sum emotions in
  if Qeq_bool s 0 then 1 else s.

(** [agg[dim]]; every key read is one of the five that [agg] starts with. *)
Definition agg_get (agg : list (string * Q)) (dim : string) : Q :=
  default 0 (dict_get agg dim).

(** The body of [for label, prob in emotions.items()]. *)
Definition agg_add (agg : list (string * Q)) (lp : string * Q)
  : list (string * Q) :=
  let '(label, prob) := lp in
  match dict_get EMOTION_TO_MOOD label with
  | None => agg
  | Some [] => agg
  | Some mp =>
      foldl (fun ag dv => dict_set ag (fst dv) (agg_get ag (fst dv) + prob * snd dv))
            agg mp
  end.

Definition emotion_agg (emotions : list (string * Q)) : list (string * Q) :=
  foldl agg_add (map (fun k => (k, 0)) (dict_keys DEFAULT_MOOD)) emotions.

(** Lines 236-247 of [infer_text]: the emotion distribution as a mood. *)
Definition mood_from_emotions (emotions : list (string * Q))
  : list (string * Q) :=
  match emotions with
  | [] => DEFAULT_MOOD
  | _ =>
      let totalsum := emotion_totalsum emotions in
      let agg := emotion_agg emotions in
      foldl (fun mood dim => dict_set mood dim (round4 (agg_get agg dim / totalsum)))
            DEFAULT_MOOD (dict_keys agg)
  end.

(** ** The route *)

Record inference := {
  emotions : list (string * Q);
  mood : list (string * Q);
  vad : option VAD;
  source : string
}.

(** The dict comprehension [{s["label"].lower(): float(s["score"]) ...}]:
    a label seen again overwrites its score. *)
Definition emotions_of_scores (scores : list (string * Q)) : list (string * Q) :=
  foldl (fun d ls => dict_set d (lower (fst ls)) (snd ls)) [] scores.

(** Block A of [infer_text].  [nlp] is what [get_pipeline()] returns: [None]
    without the classifier, else a function that gives the scores of a text
    or raises ([None]); either failure leaves the distribution empty. *)
Definition classify_emotions
    (nlp : option (string -> option (list (string * Q)))) (text : string)
  : list (string * Q) :=
  match nlp with
  | None => []
  | Some classify =>
      match classify text with
      | Some scores => emotions_of_scores scores
      | None => []
      end
  end.

(** [infer_text], with the module state before and after the call. *)
Definition infer_text (rows : list csv_row) (g : globals)
    (nlp : option (string -> option (list (string * Q)))) (inp_text : string)
  : globals * inference :=
  let text := strip inp_text in
  match text with
  | EmptyString =>
      (g, {| emotions := []; mood := DEFAULT_MOOD; vad := None;
             source := "default" |})
  | _ =>
      let emotions := classify_emotions nlp text in
      let mood_from_emotions := mood_from_emotions emotions in
      let g' := fst (vad_from_text_gitlab rows g text) in
      let vad := snd (vad_from_text_gitlab rows g text) in
      let mood_from_vad :=
        match vad with
        | Some (v, a, d) => Some (music_mood_from_vad v a d)
        | None => None
        end in
      match mood_from_vad, emotions with
      | Some mv, _ :: _ =>
          (g', {| emotions := emotions;
                  mood := blend_moods mood_from_emotions mv 0.4;
                  vad := vad; source := "blend(emotions,VAD-gitlab)" |})
      | Some mv, [] =>
          (g', {| emotions := emotions; mood := mv; vad := vad;
                  source := "VAD-gitlab" |})
      | None, _ :: _ =>
          (g', {| emotions := emotions; mood := mood_from_emotions; vad := vad;
                  source := "emotions" |})
      | None, [] =>
          (g', {| emotions := emotions; mood := DEFAULT_MOOD; vad := vad;
                  source := "default" |})
      end
  end.

(** ** Vocabulary of the statements *)

Fixpoint string_forall (P : ascii -> bool) (s : string) : bool :=
  match s with
  | EmptyString => true
  | String c s' => P c && string_forall P s'
  end.

Definition is_sep_char (c : ascii) : bool := negb (is_word_char c).

(** A non-empty string of [[a-z']]. *)
Definition is_word (w : string) : Prop :=
  w <> EmptyString /\ string_forall is_word_char w = true.

(** The string is over, or goes on with a separator. *)
Definition run_stops (s : string) : Prop :=
  match s with
  | EmptyString => True
  | String c _ => is_word_char c = false
  end.

(** [maximal_runs s ws]: [s] is separators, the word [w1], at least one
    separator, the word [w2], ... and separators to the end; [ws] lists the
    words in order.  So [ws] are exactly the maximal runs of [[a-z']] in [s]. *)
Inductive maximal_runs : string -> list string -> Prop :=
  | runs_done (s : string) :
      string_forall is_sep_char s = true -> maximal_runs s []
  | runs_word (sep w rest : string) (ws : list string) :
      string_forall is_sep_char sep = true ->
      is_word w ->
      run_stops rest ->
      maximal_runs rest ws ->
      maximal_runs (sep +:+ w +:+ rest) (w :: ws).

(** What [findall_from] returns, with a run [cur] already read. *)
Definition runs_after (cur s : string) (ws : list string) : Prop :=
  match cur with
  | EmptyString => maximal_runs s ws
  | _ =>
      exists w' rest ws',
        s = w' +:+ rest /\ string_forall is_word_char w' = true /\
        run_stops rest /\ maximal_runs rest ws' /\ ws = (cur +:+ w') :: ws'
  end.

(** The lexicon entry of the [L] tokens that start at position [i], as the
    matcher looks it up. *)
Definition phrase_at (idx : lexicon_index)
    (toks : list string) (i L : nat) : option VAD :=
  match toks !! i with
  | None => None
  | Some first =>
      match idx !! first with
      | None => None
      | Some by_len => index_get by_len L (take L (drop i toks))
      end
  end.

(** The phrase a span of tokens spells. *)
Definition span_phrase (toks : list string) (sp : nat * nat) : string :=
  join " " (take (snd sp) (drop (fst sp) toks)).

(** Token [t] lies in the span. *)
Definition covers (t : nat) (sp : nat * nat) : bool :=
  ((fst sp <=? t) && (t <? fst sp + snd sp))%nat.

(** Spans in increasing order, none empty, none overlapping, all within
    [lo, hi). *)
Fixpoint spans_chain (lo hi : nat) (spans : list (nat * nat)) : Prop :=
  match spans with
  | [] => True
  | (s, l) :: rest =>
      (lo <= s)%nat /\ (1 <= l)%nat /\ (s + l <= hi)%nat /\
      spans_chain (s + l) hi rest
  end.

(** The five dimensions of a mood, in the order of [DEFAULT_MOOD]. *)
Definition MOOD_KEYS : list string :=
  ["valence"; "energy"; "focus"; "danceability"; "tempo_pref"].

Definition unit_values (m : list (string * Q)) : Prop :=
  Forall (fun kv => 0 <= snd kv <= 1) m.

(** Exactly the five dimensions, each in [0, 1]. *)
Definition valid_mood (m : list (string * Q)) : Prop :=
  dict_keys m = MOOD_KEYS /\ unit_values m.

(** A dictionary with the five dimensions, every value between [lo] and
    [hi]. *)
Definition mood_between (lo hi : Q) (m : list (string * Q)) : Prop :=
  exists a1 a2 a3 a4 a5 : Q,
    m = [("valence", a1); ("energy", a2); ("focus", a3);
         ("danceability", a4); ("tempo_pref", a5)] /\
    (lo <= a1 <= hi) /\ (lo <= a2 <= hi) /\ (lo <= a3 <= hi) /\
    (lo <= a4 <= hi) /\ (lo <= a5 <= hi).

Definition unit_vad (e : VAD) : Prop :=
  (0 <= fst (fst e) <= 1) /\ (0 <= snd (fst e) <= 1) /\ (0 <= snd e <= 1).

(** Every triple stored in the index lies in the unit cube. *)
Definition index_unit (idx : lexicon_index)
  : Prop :=
  forall first by_len L by_toks toks e,
    idx !! first = Some by_len -> by_len !! L = Some by_toks ->
    by_toks !! toks = Some e -> unit_vad e.

(** ** Vocabulary of the further properties *)

(** The phrase and the normalised triple a row of the file contributes,
    [None] for a row the loader skips: a term without a token, or a numeric
    cell [float] rejects. *)
Definition row_entry (row : csv_row) : option (list string * VAD) :=
  match tokenize (default EmptyString (row_term row)),
        row_valence row, row_arousal row, row_dominance row with
  | first :: rest, Some v, Some a, Some d =>
      Some (first :: rest, (_norm01 v, _norm01 a, _norm01 d))
  | _, _, _, _ => None
  end.

(** The triple of the last row whose phrase is [toks], [init] if there is
    none. *)
Definition lexicon_fold (init : option VAD) (rows : list csv_row)
    (toks : list string) : option VAD :=
  foldl (fun acc row =>
           match row_entry row with
           | Some (t, e) => if decide (t = toks) then Some e else acc
           | None => acc
           end)
        init rows.

Definition lexicon_last (rows : list csv_row) (toks : list string)
  : option VAD :=
  lexicon_fold None rows toks.

(** The entry the index holds for a whole phrase: under its first token and
    its length. *)
Definition index_find (idx : lexicon_index) (toks : list string) : option VAD :=
  match toks with
  | [] => None
  | first :: _ =>
      match idx !! first with
      | None => None
      | Some by_len => index_get by_len (length toks) toks
      end
  end.

(** How often the phrase [k] occurs in a list of matches. *)
Definition count_key (k : string) (ms : list (string * VAD)) : nat :=
  length (List.filter (fun m => String.eqb (fst m) k) ms).


(** The score of the last entry whose lowercased label is [k]. *)
Definition last_score (scores : list (string * Q)) (k : string) : option Q :=
  foldl (fun acc ls => if String.eqb k (lower (fst ls)) then Some (snd ls) else acc)
        None scores.

(** [get_pipeline()], on the module variable [_hf_pipeline]: the variable
    after the call and the value returned.  [create] is the outcome of
    importing and building the classifier when that is attempted, [None] when
    it raises. *)
Definition get_pipeline {P : Type} (create : option P) (_hf_pipeline : option P)
  : option P * option P :=
  match _hf_pipeline with
  | Some p => (Some p, Some p)
  | None => (create, create)
  end.

(** A run of calls of [get_pipeline], one creation outcome per call: the
    variable at the end. *)
Definition get_pipeline_calls {P : Type} (creates : list (option P))
    (_hf_pipeline : option P) : option P :=
  foldl (fun st create => fst (get_pipeline create st)) _hf_pipeline creates.


(** Every entry stored in the index, under whatever first token [f] and
    length [L], satisfies [P f L toks e]. *)
Definition index_all (P : string -> nat -> list string -> VAD -> Prop)
    (idx : lexicon_index) : Prop :=
  forall f by_len L by_toks toks e,
    idx !! f = Some by_len -> by_len !! L = Some by_toks ->
    by_toks !! toks = Some e -> P f L toks e.

(** An index entry in its place: under the first token and the length of
    its phrase, of one to four words, with a triple of the unit cube. *)
Definition keyed_entry (f : string) (L : nat) (toks : list string) (e : VAD)
  : Prop :=
  List.hd_error toks = Some f /\ length toks = L /\
  (1 <= L <= _max_ngram)%nat /\
  Forall is_word toks /\ unit_vad e.

(** The [Counter] holds, for every phrase, the number of its matches. *)
Definition counts_tally (st : scan_state) : Prop :=
  forall k : string,
    counts st !! k =
      if (count_key k (matches st) =? 0)%nat then None
      else Some (count_key k (matches st)).

(** A recorded match is an index hit somewhere in the text. *)
Definition match_is_hit (idx : lexicon_index) (toks : list string)
    (m : string * VAD) : Prop :=
  exists i L : nat,
    (1 <= L <= _max_ngram)%nat /\ (i + L <= length toks)%nat /\
    fst m = span_phrase toks (i, L) /\
    phrase_at idx toks i L = Some (snd m).

(** The first classifier a run of creation attempts yields. *)
Fixpoint first_created {P : Type} (creates : list (option P)) : option P :=
  match creates with
  | [] => None
  | Some p :: _ => Some p
  | None :: rest => first_created rest
  end.



(** * Properties *)

(** ** Rounding *)

Lemma round_half_even_proper (x y : Q) :
  x == y -> round_half_even x = round_half_even y.
Proof.
  intros H. unfold round_half_even.
  rewrite (Qfloor_comp _ _ H).
  assert (Hd : x - inject_Z (Qfloor y) == y - inject_Z (Qfloor y))
    by (rewrite H; reflexivity).
  now rewrite (Qcompare_comp _ _ Hd _ _ (Qeq_refl _)).
Qed.

Lemma round4_proper (x y : Q) : x == y -> round4 x = round4 y.
Proof.
  intros H. unfold round4. f_equal.
  apply round_half_even_proper. now rewrite H.
Qed.

Lemma round_half_even_between (a b : Z) (x : Q) :
  inject_Z a <= x -> x <= inject_Z b ->
  (a <= round_half_even x <= b)%Z.
Proof.
  intros Ha Hb.
  assert (Hfa : (a <= Qfloor x)%Z).
  { rewrite <- (Qfloor_Z a). now apply Qfloor_resp_le. }
  assert (Hfb : (Qfloor x <= b)%Z).
  { rewrite <- (Qfloor_Z b). now apply Qfloor_resp_le. }
  assert (Hup : inject_Z (Qfloor x) < x -> (Qfloor x + 1 <= b)%Z).
  { intros Hlt.
    assert (Hq : inject_Z (Qfloor x) < inject_Z b) by lra.
    rewrite <- Zlt_Qlt in Hq. lia. }
  unfold round_half_even.
  destruct (Qcompare (x - inject_Z (Qfloor x)) (1 # 2)) eqn:Hc.
  - apply Qeq_alt in Hc. destruct (Z.even (Qfloor x)); [lia|].
    split; [lia|]. apply Hup. lra.
  - lia.
  - apply Qgt_alt in Hc. split; [lia|]. apply Hup. lra.
Qed.

Lemma round4_unit (x : Q) : 0 <= x <= 1 -> 0 <= round4 x <= 1.
Proof.
  intros [H0 H1].
  destruct (round_half_even_between 0 10000 (x * 10000)) as [Hl Hu].
  - change (inject_Z 0) with 0. lra.
  - change (inject_Z 10000) with 10000. lra.
  - unfold round4, Qle. simpl. lia.
Qed.

Lemma clamp_unit (x : Q) : 0 <= Qmax 0 (Qmin 1 x) <= 1.
Proof.
  split.
  - apply Q.le_max_l.
  - apply Q.max_lub; [lra | apply Q.le_min_l].
Qed.

Lemma _norm01_unit (x : Q) : 0 <= _norm01 x <= 1.
Proof. apply clamp_unit. Qed.

(** ** The tokenizer *)

Lemma word_char_lower (c : ascii) : is_word_char c = true -> ascii_lower c = c.
Proof.
  destruct c as [[] [] [] [] [] [] [] []]; vm_compute; congruence.
Qed.

Lemma space_is_sep (c : ascii) : is_space c = true -> is_word_char c = false.
Proof.
  destruct c as [[] [] [] [] [] [] [] []]; vm_compute; congruence.
Qed.

Lemma space_lower (c : ascii) : is_space (ascii_lower c) = is_space c.
Proof.
  destruct c as [[] [] [] [] [] [] [] []]; reflexivity.
Qed.

Lemma append_cons (c : ascii) (a b : string) :
  String c a +:+ b = String c (a +:+ b).
Proof. reflexivity. Qed.

Lemma append_empty_l (s : string) : EmptyString +:+ s = s.
Proof. reflexivity. Qed.

Lemma append_empty_r (s : string) : s +:+ EmptyString = s.
Proof.
  induction s as [|c s IH]; [reflexivity|].
  now rewrite append_cons, IH.
Qed.

Lemma append_assoc (a b c : string) : (a +:+ b) +:+ c = a +:+ (b +:+ c).
Proof.
  induction a as [|x a IH]; [reflexivity|].
  now rewrite !append_cons, IH.
Qed.

Lemma append_nonempty_r (a : string) (c : ascii) (b : string) :
  a +:+ String c b <> EmptyString.
Proof. destruct a; discriminate. Qed.

Lemma string_forall_app (P : ascii -> bool) (a b : string) :
  string_forall P (a +:+ b) = string_forall P a && string_forall P b.
Proof.
  induction a as [|c a IH]; [reflexivity|].
  rewrite append_cons. simpl. rewrite IH. now rewrite andb_assoc.
Qed.

Lemma lower_word (w : string) :
  string_forall is_word_char w = true -> lower w = w.
Proof.
  induction w as [|c w IH]; simpl; [reflexivity|].
  intros H. apply andb_prop in H as [Hc Hw].
  now rewrite (word_char_lower c Hc), IH.
Qed.

Lemma maximal_runs_sep (c : ascii) (s : string) (ws : list string) :
  is_word_char c = false -> maximal_runs s ws -> maximal_runs (String c s) ws.
Proof.
  intros Hc Hr. destruct Hr as [s Hs | sep w rest ws Hsep Hw Hstop Hr].
  - apply runs_done. simpl. unfold is_sep_char at 1. now rewrite Hc.
  - change (String c (sep +:+ w +:+ rest)) with (String c sep +:+ w +:+ rest).
    apply runs_word; try assumption.
    simpl. unfold is_sep_char at 1. now rewrite Hc.
Qed.

Lemma runs_after_nonempty (cur s : string) (ws : list string) :
  cur <> EmptyString -> runs_after cur s ws ->
  exists w' rest ws',
    s = w' +:+ rest /\ string_forall is_word_char w' = true /\
    run_stops rest /\ maximal_runs rest ws' /\ ws = (cur +:+ w') :: ws'.
Proof. destruct cur; [contradiction | trivial]. Qed.

Lemma findall_from_runs (s cur : string) :
  string_forall is_word_char cur = true ->
  runs_after cur s (findall_from cur s).
Proof.
  revert cur. induction s as [|c s IH]; intros cur Hcur.
  - destruct cur as [|x cur]; simpl.
    + now apply runs_done.
    + exists EmptyString, EmptyString, [].
      rewrite append_empty_r.
      repeat split; [now apply runs_done|].
      now rewrite append_cons, append_empty_r.
  - simpl. destruct (is_word_char c) eqn:Hc.
    + assert (Hcur' : string_forall is_word_char (cur +:+ String c EmptyString) = true).
      { rewrite string_forall_app, Hcur. simpl. now rewrite Hc. }
      specialize (IH _ Hcur').
      apply runs_after_nonempty in IH; [|apply append_nonempty_r].
      destruct IH as (w' & rest & ws' & -> & Hw' & Hstop & Hr & ->).
      destruct cur as [|x cur].
      * simpl.
        change (String c (w' +:+ rest)) with (EmptyString +:+ String c w' +:+ rest).
        change (EmptyString +:+ String c EmptyString +:+ w') with (String c w').
        apply runs_word; try assumption.
        split; [discriminate|]. simpl. now rewrite Hc.
      * exists (String c w'), rest, ws'.
        repeat split; try assumption.
        -- simpl. now rewrite Hc.
        -- now rewrite append_assoc.
    + specialize (IH EmptyString eq_refl). simpl in IH.
      destruct cur as [|x cur]; simpl.
      * now apply maximal_runs_sep.
      * exists EmptyString, (String c s), (findall_from EmptyString s).
        rewrite append_empty_r. repeat split; try assumption.
        now apply maximal_runs_sep.
Qed.

Lemma findall_runs (s : string) : maximal_runs s (_word_re_findall s).
Proof. exact (findall_from_runs s EmptyString eq_refl). Qed.

Lemma maximal_runs_words (s : string) (ws : list string) :
  maximal_runs s ws -> Forall is_word ws.
Proof. induction 1; constructor; assumption. Qed.

Lemma map_lower_words (ws : list string) :
  Forall is_word ws -> map lower ws = ws.
Proof.
  induction 1 as [|w ws [_ Hw] _ IH]; simpl; [reflexivity|].
  now rewrite (lower_word w Hw), IH.
Qed.

Lemma tokenize_findall (text : string) :
  tokenize text = _word_re_findall (lower text).
Proof.
  unfold tokenize. apply map_lower_words.
  apply (maximal_runs_words (lower text)), findall_runs.
Qed.

Lemma findall_from_word (w cur s : string) :
  string_forall is_word_char w = true ->
  findall_from cur (w +:+ s) = findall_from (cur +:+ w) s.
Proof.
  revert cur. induction w as [|c w IH]; intros cur Hw; simpl.
  - now rewrite append_empty_r.
  - simpl in Hw. apply andb_prop in Hw as [Hc Hw].
    rewrite Hc, IH by assumption.
    now rewrite append_assoc.
Qed.

Lemma join_cons2 (sep x y : string) (l : list string) :
  join sep (x :: y :: l) = x +:+ sep +:+ join sep (y :: l).
Proof. reflexivity. Qed.

Lemma flush_word (w : string) : is_word w -> flush w = [w].
Proof. intros [Hne _]. destruct w; [contradiction | reflexivity]. Qed.

Lemma findall_join (ws : list string) :
  Forall is_word ws -> _word_re_findall (join " " ws) = ws.
Proof.
  unfold _word_re_findall.
  induction 1 as [|w ws Hw Hws IH]; [reflexivity|].
  destruct ws as [|w2 ws].
  - change (join " " [w]) with w.
    rewrite <- (append_empty_r w) at 1.
    rewrite findall_from_word by apply Hw.
    rewrite append_empty_l. apply (flush_word w Hw).
  - rewrite join_cons2, findall_from_word by apply Hw.
    rewrite append_empty_l, append_cons, append_empty_l.
    change (findall_from w (String " " (join " " (w2 :: ws))))
      with (flush w ++ findall_from EmptyString (join " " (w2 :: ws))).
    now rewrite IH, (flush_word w Hw).
Qed.

Lemma join_words_chars (ws : list string) :
  Forall is_word ws ->
  string_forall (fun c => is_word_char c || Ascii.eqb c " ") (join " " ws) = true.
Proof.
  assert (Hmono : forall w, string_forall is_word_char w = true ->
            string_forall (fun c => is_word_char c || Ascii.eqb c " ") w = true).
  { induction w as [|c w IHw]; simpl; [reflexivity|].
    intros H. apply andb_prop in H as [-> Hw]. simpl. now apply IHw. }
  induction 1 as [|w ws [Hne Hw] Hws IH]; [reflexivity|].
  destruct ws as [|w2 ws].
  - now apply Hmono.
  - rewrite join_cons2, string_forall_app, (Hmono w Hw).
    rewrite append_cons, append_empty_l. exact IH.
Qed.

Lemma lower_fixed (s : string) :
  string_forall (fun c => is_word_char c || Ascii.eqb c " ") s = true ->
  lower s = s.
Proof.
  induction s as [|c s IH]; simpl; [reflexivity|].
  intros H. apply andb_prop in H as [Hc Hs].
  rewrite IH by assumption. f_equal.
  apply orb_prop in Hc as [Hc | Hc].
  - now apply word_char_lower.
  - apply Ascii.eqb_eq in Hc. now subst c.
Qed.

(** C7. [tokenize] is a function defined on every string; its tokens are
    exactly the maximal runs of [[a-z']] in the lowercased text, each
    non-empty and unchanged by [lower]; [tokenize "I'm Happy!!"] is
    [["i'm"; "happy"]]; tokenizing the space-joined tokens gives the same
    tokens again. *)
Theorem tokenize_maximal_runs_idempotent :
  (forall text : string,
      maximal_runs (lower text) (tokenize text) /\
      Forall (fun t => is_word t /\ lower t = t) (tokenize text) /\
      tokenize (join " " (tokenize text)) = tokenize text) /\
  tokenize "I'm Happy!!" = ["i'm"; "happy"].
Proof.
  split; [|reflexivity].
  intros text.
  assert (Hruns : maximal_runs (lower text) (tokenize text)).
  { rewrite tokenize_findall. apply findall_runs. }
  pose proof (maximal_runs_words _ _ Hruns) as Hwords.
  split; [exact Hruns|]. split.
  - eapply Forall_impl; [exact Hwords|].
    intros t Ht. split; [exact Ht|]. apply lower_word, Ht.
  - rewrite (tokenize_findall (join " " (tokenize text))).
    rewrite lower_fixed by now apply join_words_chars.
    now apply findall_join.
Qed.

Lemma lower_lstrip (s : string) : lower (lstrip s) = lstrip (lower s).
Proof.
  induction s as [|c s IH]; [reflexivity|].
  simpl. rewrite space_lower. now destruct (is_space c).
Qed.

Lemma lower_rstrip (s : string) : lower (rstrip s) = rstrip (lower s).
Proof.
  induction s as [|c s IH]; [reflexivity|].
  simpl. rewrite <- IH, space_lower.
  destruct (rstrip s); simpl; [now destruct (is_space c) | reflexivity].
Qed.

Lemma findall_lstrip (s : string) :
  findall_from EmptyString (lstrip s) = findall_from EmptyString s.
Proof.
  induction s as [|c s IH]; [reflexivity|].
  simpl. destruct (is_space c) eqn:Hs; [|reflexivity].
  now rewrite (space_is_sep c Hs).
Qed.

Lemma findall_rstrip (s cur : string) :
  findall_from cur (rstrip s) = findall_from cur s.
Proof.
  revert cur. induction s as [|c s IH]; intros cur; [reflexivity|].
  assert (Hstep : findall_from cur (String c (rstrip s)) = findall_from cur (String c s)).
  { simpl. destruct (is_word_char c); now rewrite IH. }
  simpl rstrip. destruct (rstrip s) eqn:Hr; [|exact Hstep].
  destruct (is_space c) eqn:Hs; [|exact Hstep].
  rewrite <- Hstep. simpl. rewrite (space_is_sep c Hs). simpl.
  now rewrite app_nil_r.
Qed.

Lemma tokenize_strip (text : string) : tokenize (strip text) = tokenize text.
Proof.
  rewrite !tokenize_findall. unfold strip, _word_re_findall.
  now rewrite lower_rstrip, lower_lstrip, findall_rstrip, findall_lstrip.
Qed.

(** ** The scan *)

Local Close Scope Q_scope.

Section Scan.

Variable idx : lexicon_index.
Variable toks : list string.

Lemma try_lengths_spec (i : nat) (first : string) (L0 : nat) :
  toks !! i = Some first ->
  match try_lengths idx toks i first L0 with
  | Some (L, e) =>
      1 <= L <= L0 /\ phrase_at idx toks i L = Some e /\
      forall L', L < L' <= L0 -> phrase_at idx toks i L' = None
  | None => forall L', 1 <= L' <= L0 -> phrase_at idx toks i L' = None
  end.
Proof.
  intros Hfirst. unfold phrase_at. rewrite Hfirst.
  induction L0 as [|L0 IH]; simpl.
  - intros L' HL'. lia.
  - destruct (idx !! first) as [by_len|] eqn:Hidx; [|reflexivity].
    destruct (index_get by_len (S L0) (take (S L0) (drop i toks))) as [e|] eqn:Hget.
    + split; [lia|]. split; [exact Hget|]. intros L' HL'. lia.
    + destruct (try_lengths idx toks i first L0) as [[L e]|].
      * destruct IH as (HL & He & Hlonger).
        split; [lia|]. split; [exact He|].
        intros L' HL'. destruct (decide (L' = S L0)) as [->|Hne].
        -- exact Hget.
        -- apply Hlonger. lia.
      * intros L' HL'. destruct (decide (L' = S L0)) as [->|Hne].
        -- exact Hget.
        -- apply IH. lia.
Qed.

Lemma try_lengths_longest (i : nat) (first : string) (L0 L : nat) (e : VAD) :
  toks !! i = Some first ->
  1 <= L <= L0 ->
  phrase_at idx toks i L = Some e ->
  (forall L', L < L' <= L0 -> phrase_at idx toks i L' = None) ->
  try_lengths idx toks i first L0 = Some (L, e).
Proof.
  intros Hfirst HL He Hlonger.
  pose proof (try_lengths_spec i first L0 Hfirst) as Hspec.
  destruct (try_lengths idx toks i first L0) as [[L2 e2]|].
  - destruct Hspec as (HL2 & He2 & Hlonger2).
    destruct (lt_eq_lt_dec L L2) as [[Hlt|Heq]|Hgt].
    + rewrite Hlonger in He2 by lia. discriminate.
    + subst L2. congruence.
    + rewrite Hlonger2 in He by lia. discriminate.
  - rewrite Hspec in He by lia. discriminate.
Qed.

(** What one iteration does, by cases. *)
Lemma scan_step_cases (st : scan_state) :
  pos st < length toks ->
  (pos (scan_step idx toks st) = pos st + 1 /\
   counts (scan_step idx toks st) = counts st /\
   matches (scan_step idx toks st) = matches st /\
   forall L, 1 <= L <= Nat.min _max_ngram (length toks - pos st) ->
             phrase_at idx toks (pos st) L = None) \/
  (exists L e,
      1 <= L <= Nat.min _max_ngram (length toks - pos st) /\
      phrase_at idx toks (pos st) L = Some e /\
      (forall L', L < L' <= Nat.min _max_ngram (length toks - pos st) ->
                  phrase_at idx toks (pos st) L' = None) /\
      scan_step idx toks st =
        {| pos := pos st + L;
           counts := <[span_phrase toks (pos st, L) :=
                         S (default 0 (counts st !! span_phrase toks (pos st, L)))]>
                       (counts st);
           matches := matches st ++ [(span_phrase toks (pos st, L), e)] |}).
Proof.
  intros Hlt. unfold scan_step.
  destruct (lookup_lt_is_Some_2 toks (pos st) Hlt) as [first Hfirst].
  rewrite Hfirst.
  pose proof (try_lengths_spec (pos st) first
                (Nat.min _max_ngram (length toks - pos st)) Hfirst) as Hspec.
  destruct (try_lengths idx toks (pos st) first
              (Nat.min _max_ngram (length toks - pos st))) as [[L e]|].
  - right. exists L, e. destruct Hspec as (HL & He & Hlonger).
    repeat split; try assumption; lia.
  - left. repeat split. exact Hspec.
Qed.

Lemma scan_step_progress (st : scan_state) :
  pos st < length toks ->
  pos st < pos (scan_step idx toks st) <= length toks.
Proof.
  intros Hlt. destruct (scan_step_cases st Hlt) as [(Hp & _)|(L & e & HL & _ & _ & Heq)].
  - lia.
  - rewrite Heq. simpl. lia.
Qed.

Lemma scan_from_end (fuel : nat) (st : scan_state) :
  pos st <= length toks ->
  length toks - pos st <= fuel ->
  pos (scan_from idx toks fuel st) = length toks.
Proof.
  revert st. induction fuel as [|fuel IH]; intros st Hle Hfuel; simpl.
  - lia.
  - destruct (pos st <? length toks) eqn:Hlt.
    + apply Nat.ltb_lt in Hlt.
      pose proof (scan_step_progress st Hlt).
      apply IH; lia.
    + apply Nat.ltb_ge in Hlt. lia.
Qed.

Lemma scan_from_more_fuel (fuel fuel' : nat) (st : scan_state) :
  pos st <= length toks ->
  length toks - pos st <= fuel -> fuel <= fuel' ->
  scan_from idx toks fuel' st = scan_from idx toks fuel st.
Proof.
  revert fuel' st. induction fuel as [|fuel IH]; intros fuel' st Hle Hfuel Hmore.
  - destruct fuel' as [|fuel']; [reflexivity|]. simpl.
    destruct (pos st <? length toks) eqn:Hlt; [|reflexivity].
    apply Nat.ltb_lt in Hlt. lia.
  - destruct fuel' as [|fuel']; [lia|]. simpl.
    destruct (pos st <? length toks) eqn:Hlt; [|reflexivity].
    apply Nat.ltb_lt in Hlt.
    pose proof (scan_step_progress st Hlt).
    apply IH; lia.
Qed.

End Scan.

Section ScanRun.

Variable idx : lexicon_index.
Variable toks : list string.

Lemma scan_step_longest (st : scan_state) (L : nat) (e : VAD) :
  pos st < length toks ->
  1 <= L <= Nat.min _max_ngram (length toks - pos st) ->
  phrase_at idx toks (pos st) L = Some e ->
  (forall L', L < L' <= Nat.min _max_ngram (length toks - pos st) ->
              phrase_at idx toks (pos st) L' = None) ->
  scan_step idx toks st =
    {| pos := pos st + L;
       counts := <[span_phrase toks (pos st, L) :=
                     S (default 0 (counts st !! span_phrase toks (pos st, L)))]>
                   (counts st);
       matches := matches st ++ [(span_phrase toks (pos st, L), e)] |}.
Proof.
  intros Hlt HL He Hlonger.
  destruct (scan_step_cases idx toks st Hlt)
    as [(_ & _ & _ & Hnone)|(L2 & e2 & HL2 & He2 & Hlonger2 & Heq)].
  - rewrite Hnone in He by exact HL. discriminate.
  - destruct (lt_eq_lt_dec L L2) as [[Hlt2|Heq2]|Hgt2].
    + rewrite Hlonger in He2 by lia. discriminate.
    + subst L2. rewrite Heq. congruence.
    + rewrite Hlonger2 in He by lia. discriminate.
Qed.

Lemma scan_trace_head (fuel : nat) (st : scan_state) :
  exists tl, scan_trace idx toks fuel st = st :: tl.
Proof.
  destruct fuel as [|fuel]; simpl; [now exists []|].
  destruct (pos st <? length toks); eauto.
Qed.

Lemma scan_trace_last (fuel : nat) (st : scan_state) :
  last (scan_trace idx toks fuel st) = Some (scan_from idx toks fuel st).
Proof.
  revert st. induction fuel as [|fuel IH]; intros st; simpl; [reflexivity|].
  destruct (pos st <? length toks); [|reflexivity].
  destruct (scan_trace_head fuel (scan_step idx toks st)) as [tl Htl].
  rewrite <- IH, Htl. reflexivity.
Qed.

Lemma spans_chain_weaken (lo lo' hi : nat) (spans : list (nat * nat)) :
  lo' <= lo -> spans_chain lo hi spans -> spans_chain lo' hi spans.
Proof.
  destruct spans as [|[s l] rest]; simpl; [trivial|].
  intros Hle (H1 & H2 & H3 & H4). repeat split; try assumption. lia.
Qed.

Lemma spans_chain_cover (lo hi : nat) (spans : list (nat * nat)) (t : nat) :
  spans_chain lo hi spans ->
  length (List.filter (covers t) spans) <= 1 /\
  (t < lo -> List.filter (covers t) spans = []).
Proof.
  revert lo. induction spans as [|[s l] rest IH]; intros lo; simpl.
  - intros _. split; [lia | reflexivity].
  - intros (Hlo & Hl & Hhi & Hrest).
    destruct (IH _ Hrest) as [Hlen Hnil].
    destruct (covers t (s, l)) eqn:Hc; unfold covers in Hc; simpl in Hc.
    + apply andb_prop in Hc as [Hst Htl].
      apply Nat.leb_le in Hst. apply Nat.ltb_lt in Htl.
      rewrite (Hnil Htl). simpl. split; lia.
    + split; [exact Hlen|]. intros Ht. apply Hnil. lia.
Qed.

Lemma match_spans_cons (st st' : scan_state) (tl : list scan_state) :
  match_spans (st :: st' :: tl) =
    if length (matches st) <? length (matches st')
    then (pos st, pos st' - pos st) :: match_spans (st' :: tl)
    else match_spans (st' :: tl).
Proof. reflexivity. Qed.

Lemma scan_trace_spans (fuel : nat) (st : scan_state) :
  pos st <= length toks ->
  spans_chain (pos st) (length toks) (match_spans (scan_trace idx toks fuel st)) /\
  map fst (matches (scan_from idx toks fuel st)) =
    map fst (matches st) ++
    map (span_phrase toks) (match_spans (scan_trace idx toks fuel st)).
Proof.
  revert st. induction fuel as [|fuel IH]; intros st Hle.
  - simpl. split; [exact I | now rewrite app_nil_r].
  - change (scan_trace idx toks (S fuel) st)
      with (if pos st <? length toks
            then st :: scan_trace idx toks fuel (scan_step idx toks st)
            else [st]).
    change (scan_from idx toks (S fuel) st)
      with (if pos st <? length toks
            then scan_from idx toks fuel (scan_step idx toks st)
            else st).
    destruct (pos st <? length toks) eqn:Hlt;
      [|simpl; split; [exact I | now rewrite app_nil_r]].
    apply Nat.ltb_lt in Hlt.
    pose proof (scan_step_progress idx toks st Hlt) as Hprog.
    destruct (IH (scan_step idx toks st)) as [Hchain Hmatches]; [lia|].
    destruct (scan_trace_head fuel (scan_step idx toks st)) as [tl Htl].
    rewrite Hmatches. clear Hmatches IH.
    rewrite Htl in *. rewrite match_spans_cons.
    destruct (scan_step_cases idx toks st Hlt)
      as [(Hp & _ & Hm & _)|(L & e & HL & _ & _ & Heq)].
    + rewrite Hm, Nat.ltb_irrefl. split; [|reflexivity].
      eapply spans_chain_weaken; [|exact Hchain]. lia.
    + assert (Hpos : pos (scan_step idx toks st) = pos st + L)
        by now rewrite Heq.
      assert (Hm : matches (scan_step idx toks st) =
                   matches st ++ [(span_phrase toks (pos st, L), e)])
        by now rewrite Heq.
      rewrite Hm, length_app. simpl length.
      replace (length (matches st) <? length (matches st) + 1) with true
        by (symmetry; apply Nat.ltb_lt; lia).
      rewrite Hpos in *.
      replace (pos st + L - pos st) with L by lia.
      split.
      * simpl. repeat split; try lia. exact Hchain.
      * rewrite map_app. simpl. now rewrite <- app_assoc.
Qed.

End ScanRun.

(** C5. At any scan position, if a phrase of some length [L] (at most 4 and
    at most the tokens left) is in the index and no longer one is, the
    iteration records exactly that phrase, counts it once more and moves on
    by [L]; no shorter phrase is recorded there.  With "not good" and "good"
    in the lexicon, "this is not good today" yields the single match
    "not good". *)
Theorem longest_phrase_wins :
  (forall (idx : lexicon_index)
          (toks : list string) (st : scan_state) (L : nat) (e : VAD),
      pos st < length toks ->
      1 <= L <= Nat.min 4 (length toks - pos st) ->
      phrase_at idx toks (pos st) L = Some e ->
      (forall L', L < L' <= Nat.min 4 (length toks - pos st) ->
                  phrase_at idx toks (pos st) L' = None) ->
      scan_step idx toks st =
        {| pos := pos st + L;
           counts := <[span_phrase toks (pos st, L) :=
                         S (default 0 (counts st !! span_phrase toks (pos st, L)))]>
                       (counts st);
           matches := matches st ++ [(span_phrase toks (pos st, L), e)] |}) /\
  (let rows :=
     [ {| row_term := Some "not good"; row_valence := Some (-0.6)%Q;
          row_arousal := Some 0.2%Q; row_dominance := Some (-0.2)%Q |};
       {| row_term := Some "good"; row_valence := Some 0.6%Q;
          row_arousal := Some 0.6%Q; row_dominance := Some 0.6%Q |} ] in
   let idx := _index_by_first (load_gitlab_vad rows initial_globals) in
   phrase_at idx (tokenize "this is not good today") 3 1 =
     Some (_norm01 0.6, _norm01 0.6, _norm01 0.6) /\
   matches (scan idx (tokenize "this is not good today")) =
     [("not good", (_norm01 (-0.6), _norm01 0.2, _norm01 (-0.2)))]).
Proof.
  split.
  - intros idx toks st L e. apply scan_step_longest.
  - vm_compute. split; reflexivity.
Qed.

Lemma longest_phrase_wins_witness :
  let idx : lexicon_index :=
    {[ "good" := {[ 1 := {[ ["good"] := (1, 1, 1)%Q ]} ]} ]} in
  let st := {| pos := 1; counts := ∅; matches := [] |} in
  pos (scan_step idx ["so"; "good"] st) = 2 /\
  matches (scan_step idx ["so"; "good"] st) = [("good", (1, 1, 1)%Q)].
Proof.
  intros idx st.
  rewrite (proj1 longest_phrase_wins idx ["so"; "good"] st 1 (1, 1, 1)%Q).
  - split; reflexivity.
  - simpl. lia.
  - simpl. lia.
  - reflexivity.
  - simpl. intros L' HL'. lia.
Defined.

(** C10. Each iteration moves the position strictly forward, by the length
    of the phrase it records or by one, and never past the end; after at
    most [length toks] iterations the loop stops with the position equal to
    [length toks], and more fuel changes nothing; the recorded matches are
    the phrases of token ranges that follow one another without overlap, so
    no token belongs to two of them. *)
Theorem scan_single_pass
    (idx : lexicon_index)
    (toks : list string) :
  (forall st : scan_state,
      pos st < length toks ->
      pos st < pos (scan_step idx toks st) <= length toks /\
      ((pos (scan_step idx toks st) = pos st + 1 /\
        matches (scan_step idx toks st) = matches st) \/
       (exists L e,
           1 <= L /\ pos (scan_step idx toks st) = pos st + L /\
           matches (scan_step idx toks st) =
             matches st ++ [(span_phrase toks (pos st, L), e)]))) /\
  pos (scan idx toks) = length toks /\
  (forall fuel, length toks <= fuel ->
                scan_from idx toks fuel scan_init = scan idx toks) /\
  last (scan_trace idx toks (length toks) scan_init) = Some (scan idx toks) /\
  (let spans := match_spans (scan_trace idx toks (length toks) scan_init) in
   map (span_phrase toks) spans = map fst (matches (scan idx toks)) /\
   spans_chain 0 (length toks) spans /\
   forall t, length (List.filter (covers t) spans) <= 1).
Proof.
  split; [|split; [|split; [|split]]].
  - intros st Hlt. split; [now apply scan_step_progress|].
    destruct (scan_step_cases idx toks st Hlt)
      as [(Hp & _ & Hm & _)|(L & e & HL & _ & _ & Heq)].
    + left. now split.
    + right. exists L, e. rewrite Heq. simpl. repeat split. lia.
  - apply scan_from_end; simpl; lia.
  - intros fuel Hfuel. apply scan_from_more_fuel; simpl; lia.
  - apply scan_trace_last.
  - destruct (scan_trace_spans idx toks (length toks) scan_init) as [Hchain Hm];
      [simpl; lia|].
    simpl. split; [|split].
    + unfold scan. rewrite Hm. reflexivity.
    + exact Hchain.
    + intros t. eapply spans_chain_cover. exact Hchain.
Qed.

Lemma scan_single_pass_witness :
  1 < pos (scan_step {[ "good" := {[ 1 := {[ ["good"] := (1, 1, 1)%Q ]} ]} ]}
                     ["so"; "good"] {| pos := 1; counts := ∅; matches := [] |})
    <= 2.
Proof.
  apply (proj1 (scan_single_pass
                  {[ "good" := {[ 1 := {[ ["good"] := (1, 1, 1)%Q ]} ]} ]}
                  ["so"; "good"])
           {| pos := 1; counts := ∅; matches := [] |}).
  simpl. lia.
Defined.

(** ** No match *)

Section NoMatch.

Variable idx : lexicon_index.
Variable toks : list string.

Lemma try_lengths_unknown (i : nat) (first : string) (L : nat) :
  idx !! first = None -> try_lengths idx toks i first L = None.
Proof. intros H. destruct L; simpl; [reflexivity | now rewrite H]. Qed.

Lemma scan_from_unknown (fuel : nat) (st : scan_state) :
  (forall t, t ∈ toks -> idx !! t = None) ->
  matches (scan_from idx toks fuel st) = matches st.
Proof.
  intros Hunknown. revert st.
  induction fuel as [|fuel IH]; intros st; simpl; [reflexivity|].
  destruct (pos st <? length toks); [|reflexivity].
  rewrite IH. unfold scan_step.
  destruct (toks !! pos st) as [first|] eqn:Hfirst; [|reflexivity].
  rewrite try_lengths_unknown; [reflexivity|].
  apply Hunknown. eapply list_elem_of_lookup_2. exact Hfirst.
Qed.

Lemma vad_of_tokens_no_match :
  matches (scan idx toks) = [] -> vad_of_tokens idx toks = None.
Proof.
  intros H. unfold vad_of_tokens. destruct toks; [reflexivity|].
  now rewrite H.
Qed.

End NoMatch.

Lemma infer_text_vad (rows : list csv_row) (g : globals)
    (nlp : option (string -> option (list (string * Q)))) (text : string) :
  vad (snd (infer_text rows g nlp text)) =
    vad_of_tokens (_index_by_first (load_gitlab_vad rows g)) (tokenize text).
Proof.
  rewrite <- (tokenize_strip text). unfold infer_text.
  destruct (strip text) as [|c s] eqn:Hs; [reflexivity|].
  unfold vad_from_text_gitlab. simpl snd. simpl fst.
  destruct (vad_of_tokens _ _) as [[[v a] d]|];
    destruct (classify_emotions nlp (String c s)); reflexivity.
Qed.

(** C6. When the scan of a text's tokens records no match, the matcher
    returns nothing and the [vad] field of the inference result is [None]
    (not a triple of zeros or of defaults); a text none of whose tokens is a
    key of the index is such a text. *)
Theorem no_match_is_absent (rows : list csv_row) (g : globals)
    (nlp : option (string -> option (list (string * Q)))) (text : string) :
  let idx := _index_by_first (load_gitlab_vad rows g) in
  (matches (scan idx (tokenize text)) = [] ->
   snd (vad_from_text_gitlab rows g text) = None /\
   vad (snd (infer_text rows g nlp text)) = None) /\
  ((forall t, t ∈ tokenize text -> idx !! t = None) ->
   matches (scan idx (tokenize text)) = []).
Proof.
  intros idx. split.
  - intros H. rewrite infer_text_vad. simpl.
    split; now apply vad_of_tokens_no_match.
  - intros H. unfold scan. now rewrite scan_from_unknown.
Qed.

Lemma no_match_is_absent_witness :
  snd (vad_from_text_gitlab [] initial_globals "unknown words") = None /\
  vad (snd (infer_text [] initial_globals None "unknown words")) = None.
Proof.
  apply (proj1 (no_match_is_absent [] initial_globals None "unknown words")).
  apply (proj2 (no_match_is_absent [] initial_globals None "unknown words")).
  intros t _. reflexivity.
Defined.

(** ** Aggregation *)

Local Open Scope Q_scope.

(** C1. A phrase matched twice with VAD (0.2, 0.2, 0.2) and one matched once
    with (0.8, 0.8, 0.8): the aggregation loop runs over the list of matches,
    which holds the first phrase twice, and weights each entry by the count
    of its phrase, so the result is (0.2*2 + 0.2*2 + 0.8*1) / (2 + 2 + 1) =
    0.32 in each component, and 0.32 is not 0.4. *)
Theorem aggregate_weights_repeated_matches :
  (let rows :=
     [ {| row_term := Some "calm"; row_valence := Some (-0.6);
          row_arousal := Some (-0.6); row_dominance := Some (-0.6) |};
       {| row_term := Some "happy"; row_valence := Some 0.6;
          row_arousal := Some 0.6; row_dominance := Some 0.6 |} ] in
   let idx := _index_by_first (load_gitlab_vad rows initial_globals) in
   matches (scan idx (tokenize "calm calm happy")) =
     [("calm", (_norm01 (-0.6), _norm01 (-0.6), _norm01 (-0.6)));
      ("calm", (_norm01 (-0.6), _norm01 (-0.6), _norm01 (-0.6)));
      ("happy", (_norm01 0.6, _norm01 0.6, _norm01 0.6))] /\
   _norm01 (-0.6) == 0.2 /\ _norm01 0.6 == 0.8 /\
   snd (vad_from_text_gitlab rows initial_globals "calm calm happy") =
     Some (3200 # 10000, 3200 # 10000, 3200 # 10000)) /\
  aggregate {[ "calm" := 2%nat; "happy" := 1%nat ]}
            [("calm", (0.2, 0.2, 0.2)); ("calm", (0.2, 0.2, 0.2));
             ("happy", (0.8, 0.8, 0.8))] =
    Some (3200 # 10000, 3200 # 10000, 3200 # 10000) /\
  (3200 # 10000) == 0.32 /\ ~ (3200 # 10000) == 0.4.
Proof.
  repeat split; try (vm_compute; congruence).
Qed.

(** ** Moods *)

Lemma mood_between_valid (m : list (string * Q)) :
  mood_between 0 1 m -> valid_mood m.
Proof.
  intros (a1 & a2 & a3 & a4 & a5 & -> & H1 & H2 & H3 & H4 & H5).
  split; [reflexivity|]. repeat constructor; simpl; tauto.
Qed.

Lemma music_mood_from_vad_valid (v a d : Q) :
  0 <= v <= 1 -> 0 <= a <= 1 -> valid_mood (music_mood_from_vad v a d).
Proof.
  intros Hv Ha. apply mood_between_valid. unfold music_mood_from_vad.
  do 5 eexists. split; [reflexivity|].
  repeat split; try (apply round4_unit; first [assumption | apply clamp_unit]).
Qed.

Lemma get_or_half_unit (m : list (string * Q)) (k : string) :
  unit_values m -> 0 <= get_or_half m k <= 1.
Proof.
  unfold get_or_half.
  induction 1 as [|[k' x] m Hx Hm IH]; simpl; [lra|].
  destruct (String.eqb k k'); [exact Hx | exact IH].
Qed.

Lemma blend_moods_eq (a b : list (string * Q)) (wa : Q) :
  blend_moods a b wa =
    map (fun k => (k, round4 (get_or_half a k * wa + get_or_half b k * (1 - wa))))
        MOOD_KEYS.
Proof. reflexivity. Qed.

Lemma blend_unit (x y wa : Q) :
  0 <= x <= 1 -> 0 <= y <= 1 -> 0 <= wa <= 1 ->
  0 <= round4 (x * wa + y * (1 - wa)) <= 1.
Proof. intros Hx Hy Hw. apply round4_unit. nra. Qed.

Lemma blend_moods_valid (a b : list (string * Q)) (wa : Q) :
  unit_values a -> unit_values b -> 0 <= wa <= 1 ->
  valid_mood (blend_moods a b wa).
Proof.
  intros Ha Hb Hw. rewrite blend_moods_eq. split; [reflexivity|].
  repeat constructor; simpl;
    apply blend_unit; auto using get_or_half_unit.
Qed.

(** One label added to the running sums: each sum grows by at most the
    label's probability and does not shrink. *)
Lemma agg_add_between (lo hi p : Q) (label : string) (agg : list (string * Q)) :
  0 <= p -> mood_between lo hi agg ->
  mood_between lo (hi + p) (agg_add agg (label, p)).
Proof.
  intros Hp (a1 & a2 & a3 & a4 & a5 & -> & H1 & H2 & H3 & H4 & H5).
  unfold agg_add, EMOTION_TO_MOOD, dict_get.
  repeat (destruct (String.eqb label _);
          [ do 5 eexists; split; [reflexivity|];
            unfold agg_get; simpl; repeat split; nra | ]).
  do 5 eexists. split; [reflexivity|]. repeat split; lra.
Qed.

Lemma emotion_fold_between (e : list (string * Q)) (s : Q)
    (agg : list (string * Q)) :
  Forall (fun kv => 0 <= snd kv) e ->
  mood_between 0 s agg ->
  mood_between 0 (foldl (fun acc kv => acc + snd kv) s e) (foldl agg_add agg e).
Proof.
  intros He. revert s agg.
  induction He as [|[label p] e Hp He IH]; intros s agg Hagg; simpl; [exact Hagg|].
  apply IH. now apply agg_add_between.
Qed.

Lemma emotion_agg_between (e : list (string * Q)) :
  Forall (fun kv => 0 <= snd kv) e ->
  mood_between 0 (emotion_sum e) (emotion_agg e).
Proof.
  intros He. apply emotion_fold_between; [exact He|].
  do 5 eexists. split; [reflexivity|]. repeat split; lra.
Qed.

Lemma emotion_agg_keys (e : list (string * Q)) :
  dict_keys (emotion_agg e) = MOOD_KEYS.
Proof.
  unfold emotion_agg.
  assert (H : forall agg, dict_keys agg = MOOD_KEYS ->
                          dict_keys (foldl agg_add agg e) = MOOD_KEYS).
  { induction e as [|[label p] e IH]; intros agg Hagg; simpl; [exact Hagg|].
    apply IH.
    destruct agg as [|[k1 a1] [|[k2 a2] [|[k3 a3] [|[k4 a4] [|[k5 a5] [|]]]]]];
      try discriminate.
    injection Hagg as -> -> -> -> ->.
    unfold agg_add, EMOTION_TO_MOOD, dict_get.
    repeat (destruct (String.eqb label _); [reflexivity|]).
    reflexivity. }
  now apply H.
Qed.

Lemma mood_from_emotions_eq (e : list (string * Q)) :
  e <> [] ->
  mood_from_emotions e =
    map (fun k => (k, round4 (agg_get (emotion_agg e) k / emotion_totalsum e)))
        MOOD_KEYS.
Proof.
  intros Hne. unfold mood_from_emotions.
  destruct e as [|x e]; [contradiction|].
  now rewrite emotion_agg_keys.
Qed.

Lemma emotion_totalsum_zero (e : list (string * Q)) :
  emotion_sum e == 0 -> emotion_totalsum e = 1.
Proof.
  intros H. unfold emotion_totalsum.
  apply Qeq_bool_iff in H. now rewrite H.
Qed.

Lemma emotion_totalsum_nonzero (e : list (string * Q)) :
  ~ emotion_sum e == 0 -> emotion_totalsum e = emotion_sum e.
Proof.
  intros H. unfold emotion_totalsum.
  destruct (Qeq_bool (emotion_sum e) 0) eqn:Hb; [|reflexivity].
  apply Qeq_bool_iff in Hb. contradiction.
Qed.

Lemma ratio_unit (a s : Q) : 0 <= a <= s -> 0 < s -> 0 <= a / s <= 1.
Proof.
  intros [H0 H1] Hs. split.
  - apply Qle_shift_div_l; [exact Hs | lra].
  - apply Qle_shift_div_r; [exact Hs | lra].
Qed.

Lemma mood_from_emotions_valid (e : list (string * Q)) :
  Forall (fun kv => 0 <= snd kv) e -> valid_mood (mood_from_emotions e).
Proof.
  intros He. destruct e as [|x e].
  - split; [reflexivity|]. repeat constructor; simpl; lra.
  - rewrite mood_from_emotions_eq by discriminate.
    destruct (emotion_agg_between _ He)
      as (a1 & a2 & a3 & a4 & a5 & Hagg & H1 & H2 & H3 & H4 & H5).
    rewrite Hagg. split; [reflexivity|].
    destruct (Qeq_dec (emotion_sum (x :: e)) 0) as [Hz|Hnz].
    + rewrite (emotion_totalsum_zero _ Hz).
      repeat constructor; unfold agg_get; simpl;
        apply round4_unit; (split; [apply Qle_shift_div_l | apply Qle_shift_div_r]);
        lra.
    + rewrite (emotion_totalsum_nonzero _ Hnz).
      repeat constructor; unfold agg_get; simpl;
        apply round4_unit; apply ratio_unit; lra.
Qed.

(** C3, as the claim words it, fails: the distribution with the single
    entry joy: 0.0 is not empty, its probabilities sum to zero, and its
    projection is the all-0.0 vector, not the default. *)
Lemma zero_sum_distribution_not_default :
  emotion_sum [("joy", 0)] == 0 /\
  mood_from_emotions [("joy", 0)] = map (fun k => (k, 0 # 10000)) MOOD_KEYS /\
  mood_from_emotions [("joy", 0)] <> DEFAULT_MOOD.
Proof.
  split; [reflexivity|]. split; [reflexivity|]. vm_compute. discriminate.
Qed.

(** C3, amended.  The empty distribution projects to the default mood
    unchanged.  A non-empty distribution whose probabilities sum to zero is
    divided by 1 instead of by its sum, so each dimension is the rounded
    weighted sum over the recognized labels; with probabilities in [0, 1]
    that is 0.0 in every dimension. *)
Theorem zero_sum_distribution_projection :
  mood_from_emotions [] = DEFAULT_MOOD /\
  (forall e : list (string * Q),
      e <> [] -> emotion_sum e == 0 ->
      mood_from_emotions e =
        map (fun k => (k, round4 (agg_get (emotion_agg e) k / 1))) MOOD_KEYS) /\
  (forall e : list (string * Q),
      e <> [] -> Forall (fun kv => 0 <= snd kv <= 1) e -> emotion_sum e == 0 ->
      mood_from_emotions e = map (fun k => (k, 0 # 10000)) MOOD_KEYS).
Proof.
  split; [reflexivity|]. split.
  - intros e Hne Hz.
    now rewrite (mood_from_emotions_eq e Hne), (emotion_totalsum_zero e Hz).
  - intros e Hne He Hz.
    rewrite (mood_from_emotions_eq e Hne), (emotion_totalsum_zero e Hz).
    assert (He' : Forall (fun kv => 0 <= snd kv) e).
    { eapply Forall_impl; [exact He|]. intros kv H. apply H. }
    destruct (emotion_agg_between e He')
      as (a1 & a2 & a3 & a4 & a5 & -> & H1 & H2 & H3 & H4 & H5).
    unfold MOOD_KEYS, agg_get. simpl.
    assert (Hr : forall x, 0 <= x <= emotion_sum e -> round4 (x / 1) = 0 # 10000).
    { intros x Hx. apply (round4_proper (x / 1) 0).
      assert (x == 0) as -> by lra. reflexivity. }
    now rewrite !Hr by assumption.
Qed.

Lemma zero_sum_distribution_projection_witness :
  mood_from_emotions [("joy", 0); ("mystery", 0)] =
    map (fun k => (k, 0 # 10000)) MOOD_KEYS.
Proof.
  apply (proj2 (proj2 zero_sum_distribution_projection)
           [("joy", 0); ("mystery", 0)]).
  - discriminate.
  - repeat constructor; unfold Qle; simpl; lia.
  - reflexivity.
Defined.

Lemma dict_set_fresh {V : Type} (d : list (string * V)) (k : string) (v : V) :
  dict_get d k = None -> dict_set d k v = d ++ [(k, v)].
Proof.
  induction d as [|[k' v'] d IH]; simpl; [reflexivity|].
  destruct (String.eqb k k'); [discriminate|].
  intros H. now rewrite IH.
Qed.

Lemma agg_add_unknown (agg : list (string * Q)) (u : string) (p : Q) :
  dict_get EMOTION_TO_MOOD u = None -> agg_add agg (u, p) = agg.
Proof. intros Hu. unfold agg_add. now rewrite Hu. Qed.

(** C8. With joy: 0.5 and unknown_label: 0.5 every mood dimension is half
    of what joy: 1.0 alone gives.  In general a label that is not in
    [EMOTION_TO_MOOD] leaves the weighted sums as they were and adds its
    probability to the sum that divides them. *)
Theorem unknown_label_dilutes :
  Forall2 (fun x y => fst x = fst y /\ snd x == snd y * (1 # 2))
          (mood_from_emotions [("joy", 0.5); ("unknown_label", 0.5)])
          (mood_from_emotions [("joy", 1.0)]) /\
  dict_keys (mood_from_emotions [("joy", 0.5); ("unknown_label", 0.5)]) =
    MOOD_KEYS /\
  (forall (e : list (string * Q)) (u : string) (p : Q),
      dict_get EMOTION_TO_MOOD u = None -> dict_get e u = None ->
      emotion_agg (dict_set e u p) = emotion_agg e /\
      emotion_sum (dict_set e u p) = emotion_sum e + p).
Proof.
  split; [|split].
  - repeat constructor.
  - reflexivity.
  - intros e u p Hu He. rewrite (dict_set_fresh e u p He).
    unfold emotion_agg, emotion_sum. rewrite !foldl_app.
    cbn [foldl snd]. now rewrite (agg_add_unknown _ u p Hu).
Qed.

Lemma unknown_label_dilutes_witness :
  emotion_agg (dict_set [("joy", 0.5)] "unknown_label" 0.5) =
    emotion_agg [("joy", 0.5)] /\
  emotion_sum (dict_set [("joy", 0.5)] "unknown_label" 0.5) =
    emotion_sum [("joy", 0.5)] + 0.5.
Proof.
  apply (proj2 (proj2 unknown_label_dilutes) [("joy", 0.5)] "unknown_label" 0.5);
    reflexivity.
Defined.

(** ** The route *)

(** The blender of [infer_text], read off the result: which branch ran is
    decided by whether [vad] is a triple and whether [emotions] is empty. *)
Lemma infer_text_cases (rows : list csv_row) (g : globals)
    (nlp : option (string -> option (list (string * Q)))) (text : string) :
  let r := snd (infer_text rows g nlp text) in
  match vad r, emotions r with
  | Some (v, a, d), _ :: _ =>
      source r = "blend(emotions,VAD-gitlab)" /\
      mood r = blend_moods (mood_from_emotions (emotions r))
                           (music_mood_from_vad v a d) 0.4
  | Some (v, a, d), [] =>
      source r = "VAD-gitlab" /\ mood r = music_mood_from_vad v a d
  | None, _ :: _ =>
      source r = "emotions" /\ mood r = mood_from_emotions (emotions r)
  | None, [] =>
      source r = "default" /\ mood r = DEFAULT_MOOD
  end.
Proof.
  unfold infer_text.
  destruct (strip text) as [|c s]; [split; reflexivity|].
  destruct (snd (vad_from_text_gitlab rows g (String c s))) as [[[v a] d]|];
    destruct (classify_emotions nlp (String c s)); split; reflexivity.
Qed.

(** C4. When the result carries both a VAD triple and a non-empty emotion
    distribution, its mood has the five dimensions and each one is
    [round4 (c * 0.4 + l * 0.6)], with [c] the value of the emotion
    projection and [l] that of the VAD projection in that dimension; and
    blending all-0 (classifier) with all-1 (lexicon) gives 0.6 everywhere. *)
Theorem blend_is_weighted_sum :
  (forall (rows : list csv_row) (g : globals)
          (nlp : option (string -> option (list (string * Q))))
          (text : string) (v a d : Q),
      let r := snd (infer_text rows g nlp text) in
      vad r = Some (v, a, d) -> emotions r <> [] ->
      dict_keys (mood r) = MOOD_KEYS /\
      forall k, In k MOOD_KEYS ->
        exists c l : Q,
          dict_get (mood_from_emotions (emotions r)) k = Some c /\
          dict_get (music_mood_from_vad v a d) k = Some l /\
          dict_get (mood r) k = Some (round4 (c * 0.4 + l * 0.6))) /\
  blend_moods (map (fun k => (k, 0)) MOOD_KEYS)
              (map (fun k => (k, 1)) MOOD_KEYS) 0.4 =
    map (fun k => (k, 6000 # 10000)) MOOD_KEYS /\
  (6000 # 10000) == 0.6.
Proof.
  split; [|split; reflexivity].
  intros rows g nlp text v a d r Hvad Hems.
  pose proof (infer_text_cases rows g nlp text) as Hcases.
  fold r in Hcases. simpl in Hcases. rewrite Hvad in Hcases.
  destruct (emotions r) as [|x ems] eqn:He; [contradiction|].
  destruct Hcases as [_ Hmood]. rewrite Hmood, blend_moods_eq.
  split; [reflexivity|].
  rewrite mood_from_emotions_eq by discriminate.
  assert (Hw : forall c l : Q,
             round4 (c * 0.4 + l * (1 - 0.4)) = round4 (c * 0.4 + l * 0.6)).
  { intros c l. apply round4_proper. ring. }
  intros k Hk. simpl in Hk.
  destruct Hk as [<-|[<-|[<-|[<-|[<-|[]]]]]];
    do 2 eexists; (split; [reflexivity|]); (split; [reflexivity|]);
    unfold MOOD_KEYS, get_or_half; simpl; now rewrite Hw.
Qed.

Lemma blend_is_weighted_sum_witness :
  let rows :=
    [ {| row_term := Some "good"; row_valence := Some 0.6;
         row_arousal := Some 0.2; row_dominance := Some 0.4 |} ] in
  let r := snd (infer_text rows initial_globals
                  (Some (fun _ => Some [("joy", 1)])) "good") in
  dict_keys (mood r) = MOOD_KEYS.
Proof.
  intros rows r.
  apply (proj1 blend_is_weighted_sum rows initial_globals
           (Some (fun _ => Some [("joy", 1)])) "good"
           (8000 # 10000) (6000 # 10000) (7000 # 10000)).
  - reflexivity.
  - discriminate.
Defined.

(** C2, as the claim words it, fails: with a lexicon match and a classifier
    distribution both present the label is "blend(emotions,VAD-gitlab)",
    which is not "blend" and is none of the four labels the claim lists. *)
Lemma blend_label_is_not_blend :
  let rows :=
    [ {| row_term := Some "good"; row_valence := Some 0.6;
         row_arousal := Some 0.2; row_dominance := Some 0.4 |} ] in
  let r := snd (infer_text rows initial_globals
                  (Some (fun _ => Some [("joy", 1)])) "good") in
  vad r = Some (8000 # 10000, 6000 # 10000, 7000 # 10000) /\
  emotions r = [("joy", 1)] /\
  source r = "blend(emotions,VAD-gitlab)" /\
  source r <> "blend" /\
  ~ In (source r) ["default"; "lexicon"; "classifier"; "blend"].
Proof.
  vm_compute. repeat split; try reflexivity; try discriminate.
  intros [H|[H|[H|[H|[]]]]]; discriminate.
Qed.

(** C2, amended.  The label is one of "default", "VAD-gitlab", "emotions"
    and "blend(emotions,VAD-gitlab)": the last when the result has both a
    VAD triple and a non-empty emotion distribution, "VAD-gitlab" with the
    triple alone, "emotions" with the distribution alone, "default" with
    neither. *)
Theorem source_label_policy (rows : list csv_row) (g : globals)
    (nlp : option (string -> option (list (string * Q)))) (text : string) :
  let r := snd (infer_text rows g nlp text) in
  In (source r)
     ["default"; "VAD-gitlab"; "emotions"; "blend(emotions,VAD-gitlab)"] /\
  source r =
    match vad r, emotions r with
    | Some _, _ :: _ => "blend(emotions,VAD-gitlab)"
    | Some _, [] => "VAD-gitlab"
    | None, _ :: _ => "emotions"
    | None, [] => "default"
    end.
Proof.
  intros r. pose proof (infer_text_cases rows g nlp text) as Hcases.
  fold r in Hcases. simpl in Hcases.
  destruct (vad r) as [[[v a] d]|]; destruct (emotions r);
    destruct Hcases as [-> _]; simpl; tauto.
Qed.

(** ** From the lexicon file to the final mood *)

Lemma index_insert_unit (idx : lexicon_index)
    (first : string) (L : nat) (toks : list string) (e : VAD) :
  index_unit idx -> unit_vad e -> index_unit (index_insert idx first L toks e).
Proof.
  intros Hidx He f by_len L' by_toks toks' e' Hf HL Ht.
  unfold index_insert in Hf.
  destruct (decide (first = f)) as [->|Hnf].
  - rewrite lookup_insert_eq in Hf. injection Hf as <-.
    destruct (decide (L = L')) as [->|HnL].
    + rewrite lookup_insert_eq in HL. injection HL as <-.
      destruct (decide (toks = toks')) as [->|Hnt].
      * rewrite lookup_insert_eq in Ht. now injection Ht as <-.
      * rewrite lookup_insert_ne in Ht by exact Hnt.
        destruct (idx !! f) as [bl|] eqn:Hbl; simpl in Ht;
          [|now rewrite lookup_empty in Ht].
        destruct (bl !! L') as [bt|] eqn:Hbt; simpl in Ht;
          [|now rewrite lookup_empty in Ht].
        exact (Hidx f bl L' bt toks' e' Hbl Hbt Ht).
    + rewrite lookup_insert_ne in HL by exact HnL.
      destruct (idx !! f) as [bl|] eqn:Hbl; simpl in HL;
        [|now rewrite lookup_empty in HL].
      exact (Hidx f bl L' by_toks toks' e' Hbl HL Ht).
  - rewrite lookup_insert_ne in Hf by exact Hnf.
    exact (Hidx f by_len L' by_toks toks' e' Hf HL Ht).
Qed.

Lemma load_row_unit
    (acc : gmap string VAD * lexicon_index)
    (row : csv_row) :
  index_unit (snd acc) -> index_unit (snd (load_row acc row)).
Proof.
  intros Hacc. unfold load_row.
  destruct (lower (strip (default EmptyString (row_term row)))) as [|c s];
    [exact Hacc|].
  destruct (tokenize (String c s)) as [|first rest]; [exact Hacc|].
  destruct (row_valence row) as [v|]; [|exact Hacc].
  destruct (row_arousal row) as [a|]; [|exact Hacc].
  destruct (row_dominance row) as [d|]; [|exact Hacc].
  cbn [snd].
  destruct (length (first :: rest) <=? _max_ngram)%nat; [|exact Hacc].
  apply index_insert_unit; [exact Hacc|].
  repeat split; apply _norm01_unit.
Qed.

Lemma load_gitlab_vad_unit (rows : list csv_row) (g : globals) :
  index_unit (_index_by_first g) ->
  index_unit (_index_by_first (load_gitlab_vad rows g)).
Proof.
  intros Hg. unfold load_gitlab_vad.
  destruct (size (_term_dict g) =? 0)%nat; [|exact Hg].
  simpl. 
  assert (H : forall acc, index_unit (snd acc) ->
                          index_unit (snd (foldl load_row acc rows))).
  { induction rows as [|row rows' IH]; intros acc Hacc; simpl; [exact Hacc|].
    apply IH. now apply load_row_unit. }
  apply H. intros f by_len L by_toks toks e Hf. simpl in Hf.
  now rewrite lookup_empty in Hf.
Qed.

Lemma phrase_at_unit (idx : lexicon_index)
    (toks : list string) (i L : nat) (e : VAD) :
  index_unit idx -> phrase_at idx toks i L = Some e -> unit_vad e.
Proof.
  intros Hidx. unfold phrase_at, index_get.
  destruct (toks !! i) as [first|]; [|discriminate].
  destruct (idx !! first) as [by_len|] eqn:Hf; [|discriminate].
  destruct (by_len !! L) as [by_toks|] eqn:HL; simpl;
    [|now rewrite lookup_empty].
  intros Ht. exact (Hidx _ _ _ _ _ _ Hf HL Ht).
Qed.

Lemma scan_from_unit (idx : lexicon_index)
    (toks : list string) (fuel : nat) (st : scan_state) :
  index_unit idx ->
  Forall (fun m => unit_vad (snd m)) (matches st) ->
  Forall (fun m => unit_vad (snd m)) (matches (scan_from idx toks fuel st)).
Proof.
  intros Hidx. revert st.
  induction fuel as [|fuel IH]; intros st Hst; simpl; [exact Hst|].
  destruct (pos st <? length toks)%nat eqn:Hlt; [|exact Hst].
  apply Nat.ltb_lt in Hlt. apply IH.
  destruct (scan_step_cases idx toks st Hlt)
    as [(_ & _ & -> & _)|(L & e & _ & He & _ & ->)]; [exact Hst|].
  simpl. apply Forall_app. split; [exact Hst|].
  constructor; [|constructor]. simpl. eapply phrase_at_unit; eassumption.
Qed.

Lemma Q_of_nat_nonneg (c : nat) : 0 <= Q_of_nat c.
Proof.
  unfold Q_of_nat. change 0 with (inject_Z 0).
  rewrite <- Zle_Qle. lia.
Qed.

Lemma add_match_bounds (cnt : gmap string nat) (ms : list (string * VAD))
    (w sv sa sd : Q) :
  Forall (fun m => unit_vad (snd m)) ms ->
  0 <= sv <= w -> 0 <= sa <= w -> 0 <= sd <= w ->
  let '(w', sv', sa', sd') := foldl (add_match cnt) (w, sv, sa, sd) ms in
  0 <= sv' <= w' /\ 0 <= sa' <= w' /\ 0 <= sd' <= w'.
Proof.
  intros Hms. revert w sv sa sd.
  induction Hms as [|[key [[v a] d]] ms (Hv & Ha & Hd) _ IH];
    intros w sv sa sd Hsv Hsa Hsd; simpl.
  - tauto.
  - simpl in Hv, Ha, Hd.
    pose proof (Q_of_nat_nonneg (default 0%nat (cnt !! key))) as Hc.
    apply IH; nra.
Qed.

Lemma aggregate_unit (cnt : gmap string nat) (ms : list (string * VAD))
    (e : VAD) :
  Forall (fun m => unit_vad (snd m)) ms ->
  aggregate cnt ms = Some e -> unit_vad e.
Proof.
  intros Hms. unfold aggregate.
  destruct ms as [|m ms']; [discriminate|].
  pose proof (add_match_bounds cnt (m :: ms') 0 0 0 0 Hms) as Hb.
  destruct (foldl (add_match cnt) (0, 0, 0, 0) (m :: ms'))
    as [[[w sv] sa] sd].
  destruct Hb as (Hsv & Hsa & Hsd); try lra.
  destruct (Qeq_bool w 0) eqn:Hw; [discriminate|].
  apply Qeq_bool_neq in Hw.
  assert (Hpos : 0 < w) by lra.
  intros [= <-]. repeat split; simpl;
    apply round4_unit; apply ratio_unit; assumption || lra.
Qed.

Lemma vad_of_tokens_unit (idx : lexicon_index)
    (toks : list string) (e : VAD) :
  index_unit idx -> vad_of_tokens idx toks = Some e -> unit_vad e.
Proof.
  intros Hidx. unfold vad_of_tokens.
  destruct toks as [|t toks']; [discriminate|].
  apply aggregate_unit. apply scan_from_unit; [exact Hidx | constructor].
Qed.

Lemma dict_set_values {V : Type} (P : V -> Prop) (d : list (string * V))
    (k : string) (v : V) :
  Forall (fun kv => P (snd kv)) d -> P v ->
  Forall (fun kv => P (snd kv)) (dict_set d k v).
Proof.
  intros Hd Hv. induction Hd as [|[k' v'] d Hx Hd IH]; simpl.
  - now repeat constructor.
  - destruct (String.eqb k k'); constructor; assumption.
Qed.

Lemma emotions_of_scores_values (P : Q -> Prop) (scores : list (string * Q)) :
  Forall (fun kv => P (snd kv)) scores ->
  Forall (fun kv => P (snd kv)) (emotions_of_scores scores).
Proof.
  unfold emotions_of_scores.
  assert (H : forall d, Forall (fun kv => P (snd kv)) d ->
                        Forall (fun kv => P (snd kv)) scores ->
                        Forall (fun kv => P (snd kv))
                          (foldl (fun d ls => dict_set d (lower (fst ls)) (snd ls))
                                 d scores)).
  { induction scores as [|[l p] scores' IH]; intros d Hd Hs; simpl; [exact Hd|].
    inversion Hs as [|? ? Hp Hs']; subst.
    apply IH; [|exact Hs']. now apply dict_set_values. }
  intros Hs. apply H; [constructor | exact Hs].
Qed.

Lemma infer_text_valid (rows : list csv_row) (g : globals)
    (nlp : option (string -> option (list (string * Q)))) (text : string) :
  index_unit (_index_by_first g) ->
  (forall classify t scores,
      nlp = Some classify -> classify t = Some scores ->
      Forall (fun kv => 0 <= snd kv <= 1) scores) ->
  valid_mood (mood (snd (infer_text rows g nlp text))).
Proof.
  intros Hg Hnlp.
  pose proof (infer_text_cases rows g nlp text) as Hcases. simpl in Hcases.
  pose proof (infer_text_vad rows g nlp text) as Hvad.
  assert (Hems : Forall (fun kv => 0 <= snd kv <= 1)
                   (emotions (snd (infer_text rows g nlp text)))).
  { unfold infer_text.
    destruct (strip text) as [|c s]; [constructor|].
    assert (He : Forall (fun kv => 0 <= snd kv <= 1)
                   (classify_emotions nlp (String c s))).
    { unfold classify_emotions. destruct nlp as [classify|]; [|constructor].
      destruct (classify (String c s)) as [scores|] eqn:Hs; [|constructor].
      apply (emotions_of_scores_values (fun p => 0 <= p <= 1)).
      exact (Hnlp classify _ scores eq_refl Hs). }
    destruct (snd (vad_from_text_gitlab rows g (String c s))) as [[[v a] d]|];
      destruct (classify_emotions nlp (String c s)); exact He. }
  assert (Hnn : Forall (fun kv => 0 <= snd kv)
                  (emotions (snd (infer_text rows g nlp text)))).
  { eapply Forall_impl; [exact Hems|]. intros kv H. apply H. }
  destruct (vad (snd (infer_text rows g nlp text))) as [[[v a] d]|] eqn:Hv.
  - symmetry in Hvad.
    apply vad_of_tokens_unit in Hvad; [|now apply load_gitlab_vad_unit].
    destruct Hvad as (Hv1 & Ha1 & Hd1). simpl in Hv1, Ha1, Hd1.
    pose proof (music_mood_from_vad_valid v a d Hv1 Ha1) as Hmv.
    destruct (emotions (snd (infer_text rows g nlp text))) as [|x ems];
      destruct Hcases as [_ ->]; [exact Hmv|].
    apply blend_moods_valid.
    + apply mood_from_emotions_valid, Hnn.
    + apply Hmv.
    + lra.
  - destruct (emotions (snd (infer_text rows g nlp text))) as [|x ems];
      destruct Hcases as [_ ->].
    + split; [reflexivity|]. repeat constructor; simpl; lra.
    + apply mood_from_emotions_valid, Hnn.
Qed.

Lemma infer_text_state_unit (rows : list csv_row) (g : globals)
    (nlp : option (string -> option (list (string * Q)))) (text : string) :
  index_unit (_index_by_first g) ->
  index_unit (_index_by_first (fst (infer_text rows g nlp text))).
Proof.
  intros Hg. unfold infer_text.
  destruct (strip text) as [|c s]; [exact Hg|].
  destruct (snd (vad_from_text_gitlab rows g (String c s))) as [[[v a] d]|];
    destruct (classify_emotions nlp (String c s));
    now apply load_gitlab_vad_unit.
Qed.

(** C9. The mood from any VAD triple in [0, 1], the mood from any emotion
    distribution with probabilities in [0, 1], the blend of two valid moods
    (under any weight in [0, 1], so under 0.4) and the default mood each have
    exactly the five dimensions valence, energy, focus, danceability and
    tempo_pref, every value in [0, 1].  So has the mood of every inference
    result when the classifier's scores lie in [0, 1] and the index holds
    triples of the unit cube, as the empty index does and as every index the
    loader builds or keeps does. *)
Theorem mood_vectors_valid :
  (forall v a d : Q,
      0 <= v <= 1 -> 0 <= a <= 1 -> 0 <= d <= 1 ->
      valid_mood (music_mood_from_vad v a d)) /\
  (forall e : list (string * Q),
      Forall (fun kv => 0 <= snd kv <= 1) e ->
      valid_mood (mood_from_emotions e)) /\
  (forall (a b : list (string * Q)) (wa : Q),
      valid_mood a -> valid_mood b -> 0 <= wa <= 1 ->
      valid_mood (blend_moods a b wa)) /\
  valid_mood DEFAULT_MOOD /\
  index_unit (_index_by_first initial_globals) /\
  (forall (rows : list csv_row) (g : globals)
          (nlp : option (string -> option (list (string * Q))))
          (text : string),
      index_unit (_index_by_first g) ->
      (forall classify t scores,
          nlp = Some classify -> classify t = Some scores ->
          Forall (fun kv => 0 <= snd kv <= 1) scores) ->
      valid_mood (mood (snd (infer_text rows g nlp text))) /\
      index_unit (_index_by_first (fst (infer_text rows g nlp text)))).
Proof.
  split; [|split; [|split; [|split; [|split]]]].
  - intros v a d Hv Ha _. now apply music_mood_from_vad_valid.
  - intros e He. apply mood_from_emotions_valid.
    eapply Forall_impl; [exact He|]. intros kv H. apply H.
  - intros a b wa [_ Ha] [_ Hb] Hw. now apply blend_moods_valid.
  - split; [reflexivity|]. repeat constructor; simpl; lra.
  - intros f by_len L by_toks toks e Hf. simpl in Hf.
    now rewrite lookup_empty in Hf.
  - intros rows g nlp text Hg Hnlp. split.
    + now apply infer_text_valid.
    + now apply infer_text_state_unit.
Qed.

Lemma mood_vectors_valid_witness :
  valid_mood (music_mood_from_vad 0.2 0.6 0.4) /\
  valid_mood (mood_from_emotions [("joy", 0.8); ("anger", 0.2)]).
Proof.
  split.
  - apply (proj1 mood_vectors_valid 0.2 0.6 0.4);
      split; unfold Qle; simpl; lia.
  - apply (proj1 (proj2 mood_vectors_valid) [("joy", 0.8); ("anger", 0.2)]).
    repeat constructor; unfold Qle; simpl; lia.
Defined.

(** * Further properties *)

(** ** Rounding, again *)

Lemma round_half_even_Z (n : Z) : round_half_even (inject_Z n) = n.
Proof.
  unfold round_half_even. rewrite Qfloor_Z.
  assert (H : inject_Z n - inject_Z n == 0) by ring.
  now rewrite (Qcompare_comp _ _ H _ _ (Qeq_refl (1 # 2))).
Qed.

Lemma round4_fixed (n : Z) : round4 (n # 10000) = n # 10000.
Proof.
  unfold round4. f_equal. rewrite <- (round_half_even_Z n) at 2.
  apply round_half_even_proper.
  unfold Qeq, inject_Z. simpl. lia.
Qed.

Lemma round4_idempotent (x : Q) : round4 (round4 x) = round4 x.
Proof. unfold round4 at 2 3. apply round4_fixed. Qed.

Lemma round_half_even_floor (x : Q) :
  (Qfloor x <= round_half_even x <= Qfloor x + 1)%Z.
Proof.
  unfold round_half_even.
  destruct (Qcompare (x - inject_Z (Qfloor x)) (1 # 2));
    [destruct (Z.even (Qfloor x))| |]; lia.
Qed.

Lemma round_half_even_mono (x y : Q) :
  x <= y -> (round_half_even x <= round_half_even y)%Z.
Proof.
  intros Hxy.
  pose proof (Qfloor_resp_le x y Hxy) as Hf.
  pose proof (round_half_even_floor x) as Hx.
  pose proof (round_half_even_floor y) as Hy.
  destruct (Z.eq_dec (Qfloor x) (Qfloor y)) as [Heq|Hne]; [|lia].
  clear Hx Hy. unfold round_half_even. rewrite <- Heq.
  destruct (Qcompare (x - inject_Z (Qfloor x)) (1 # 2)) eqn:Hcx;
    destruct (Qcompare (y - inject_Z (Qfloor x)) (1 # 2)) eqn:Hcy;
    repeat match goal with
           | H : Qcompare _ _ = Eq |- _ => apply Qeq_alt in H
           | H : Qcompare _ _ = Lt |- _ => apply Qlt_alt in H
           | H : Qcompare _ _ = Gt |- _ => apply Qgt_alt in H
           end;
    try (destruct (Z.even (Qfloor x))); try lia; exfalso; lra.
Qed.

Lemma round4_mono (x y : Q) : x <= y -> round4 x <= round4 y.
Proof.
  intros Hxy. unfold round4, Qle. simpl.
  assert (H : x * 10000 <= y * 10000) by lra.
  apply round_half_even_mono in H. lia.
Qed.

(** ** The tokenizer, again *)

Lemma ascii_lower_idempotent (c : ascii) :
  ascii_lower (ascii_lower c) = ascii_lower c.
Proof. destruct c as [[] [] [] [] [] [] [] []]; reflexivity. Qed.

Lemma lower_idempotent (s : string) : lower (lower s) = lower s.
Proof.
  induction s as [|c s IH]; [reflexivity|].
  simpl. now rewrite ascii_lower_idempotent, IH.
Qed.

Lemma lower_app (a b : string) : lower (a +:+ b) = lower a +:+ lower b.
Proof.
  induction a as [|c a IH]; [reflexivity|].
  rewrite append_cons. simpl. now rewrite IH, append_cons.
Qed.

Lemma findall_from_sep_app (a : string) (c : ascii) (b cur : string) :
  is_word_char c = false ->
  findall_from cur (a +:+ String c b) =
    findall_from cur a ++ findall_from EmptyString b.
Proof.
  intros Hc. revert cur. induction a as [|x a IH]; intros cur.
  - rewrite append_empty_l. simpl. now rewrite Hc.
  - rewrite append_cons. simpl. destruct (is_word_char x).
    + apply IH.
    + now rewrite IH, app_assoc.
Qed.

Lemma findall_from_seps (s : string) :
  string_forall is_sep_char s = true -> findall_from EmptyString s = [].
Proof.
  induction s as [|c s IH]; [reflexivity|].
  simpl. unfold is_sep_char at 1.
  destruct (is_word_char c); simpl; [discriminate | exact IH].
Qed.

Lemma tokenize_lower (s : string) : tokenize (lower s) = tokenize s.
Proof. rewrite !tokenize_findall. now rewrite lower_idempotent. Qed.

Lemma tokenize_lower_strip (s : string) :
  tokenize (lower (strip s)) = tokenize s.
Proof. now rewrite tokenize_lower, tokenize_strip. Qed.

(** X1. Tokenizing ignores letter case and blanks around the text: the
    lowercased text and the stripped text have the tokens of the text. *)
Theorem tokenize_ignores_case_and_margins (text : string) :
  tokenize (lower text) = tokenize text /\
  tokenize (strip text) = tokenize text /\
  tokenize (lower (strip text)) = tokenize text.
Proof.
  split; [apply tokenize_lower|]. split; [apply tokenize_strip|].
  apply tokenize_lower_strip.
Qed.

(** X2. A character that is neither a letter nor an apostrophe separates:
    the tokens of [a], that character, [b] are the tokens of [a] followed by
    the tokens of [b]. *)
Theorem tokenize_splits_at_separator (a b : string) (c : ascii) :
  is_word_char (ascii_lower c) = false ->
  tokenize (a +:+ String c b) = tokenize a ++ tokenize b.
Proof.
  intros Hc. rewrite !tokenize_findall. unfold _word_re_findall.
  rewrite lower_app. simpl lower.
  now apply findall_from_sep_app.
Qed.

Lemma tokenize_splits_at_separator_witness :
  tokenize ("Not" +:+ String "," "GOOD") = tokenize "Not" ++ tokenize "GOOD".
Proof.
  apply (tokenize_splits_at_separator "Not" "GOOD" ","). reflexivity.
Defined.

(** X3. A text has no token exactly when, lowercased, it holds no letter
    a-z and no apostrophe. *)
Theorem tokenize_empty_iff (text : string) :
  tokenize text = [] <-> string_forall is_sep_char (lower text) = true.
Proof.
  rewrite tokenize_findall. split.
  - intros H. pose proof (findall_runs (lower text)) as Hr.
    rewrite H in Hr. now inversion Hr.
  - apply findall_from_seps.
Qed.

Lemma tokenize_empty_iff_witness : tokenize "12, 3.5 %" = [].
Proof. apply (proj2 (tokenize_empty_iff "12, 3.5 %")). reflexivity. Defined.

(** ** Normalisation and the two mood functions, again *)

Ltac q_minmax_term t spec :=
  let H := fresh in
  let m := fresh "m" in
  pose proof spec as H; set (m := t) in *; clearbody m.

Ltac q_minmax :=
  repeat match goal with
         | |- context [Qmax ?a ?b] => q_minmax_term (Qmax a b) (Q.max_spec a b)
         | |- context [Qmin ?a ?b] => q_minmax_term (Qmin a b) (Q.min_spec a b)
         | _ : context [Qmax ?a ?b] |- _ =>
             q_minmax_term (Qmax a b) (Q.max_spec a b)
         | _ : context [Qmin ?a ?b] |- _ =>
             q_minmax_term (Qmin a b) (Q.min_spec a b)
         end.

(** X4. [_norm01] is the map (x + 1) / 2 on [-1, 1], 0 below and 1 above;
    it never decreases and its values stay in [0, 1]. *)
Theorem norm01_clamped_affine :
  (forall x : Q, -1 <= x <= 1 -> _norm01 x == (x + 1) / 2) /\
  (forall x : Q, x <= -1 -> _norm01 x == 0) /\
  (forall x : Q, 1 <= x -> _norm01 x == 1) /\
  (forall x y : Q, x <= y -> _norm01 x <= _norm01 y) /\
  (forall x : Q, 0 <= _norm01 x <= 1).
Proof.
  unfold _norm01, Qdiv. change (/ 2) with (1 # 2).
  repeat split; intros; q_minmax; lra.
Qed.

Lemma norm01_clamped_affine_witness : _norm01 (-0.6) == 0.2 /\ _norm01 3 == 1.
Proof.
  split.
  - rewrite (proj1 norm01_clamped_affine (-0.6)); [reflexivity|].
    split; unfold Qle; simpl; lia.
  - apply (proj1 (proj2 (proj2 norm01_clamped_affine)) 3).
    unfold Qle; simpl; lia.
Defined.

Lemma round4_between (lo hi : Z) (x : Q) :
  lo # 10000 <= x -> x <= hi # 10000 ->
  lo # 10000 <= round4 x <= hi # 10000.
Proof.
  intros Hlo Hhi. split.
  - rewrite <- (round4_fixed lo). now apply round4_mono.
  - rewrite <- (round4_fixed hi). now apply round4_mono.
Qed.

(** X5. For a triple of the unit cube, energy and tempo_pref are both the
    rounded arousal and valence is the rounded valence; focus lies in
    [0.3, 1] and danceability in [0.35, 0.9], where its clamp does nothing;
    a valence of at most 0.5 and the dominance do not enter danceability. *)
Theorem music_mood_from_vad_shape (v a d : Q) :
  0 <= v <= 1 -> 0 <= a <= 1 -> 0 <= d <= 1 ->
  exists focus danceability : Q,
    music_mood_from_vad v a d =
      [("valence", round4 v); ("energy", round4 a); ("focus", focus);
       ("danceability", danceability); ("tempo_pref", round4 a)] /\
    0.3 <= focus <= 1 /\
    0.35 <= danceability <= 0.9 /\
    danceability = round4 (0.35 + 0.45 * a + 0.20 * Qmax 0 (v - 0.5)) /\
    (v <= 0.5 -> danceability = round4 (0.35 + 0.45 * a)).
Proof.
  intros Hv Ha Hd. unfold music_mood_from_vad.
  do 2 eexists. split; [reflexivity|]. split; [|split; [|split]].
  - assert (H : 3000 # 10000 <= round4 (Qmax 0 (Qmin 1 (1 - 0.7 * a + 0.2 * d)))
                <= 10000 # 10000).
    { apply round4_between; q_minmax; lra. }
    split; [|lra]. destruct H as [H _].
    eapply Qle_trans; [|exact H]. unfold Qle; simpl; lia.
  - assert (H : 3500 # 10000
                <= round4 (Qmax 0 (Qmin 1 (0.35 + 0.45 * a + 0.20 * Qmax 0 (v - 0.5))))
                <= 9000 # 10000).
    { apply round4_between; q_minmax; lra. }
    destruct H as [H1 H2]. split.
    + eapply Qle_trans; [|exact H1]. unfold Qle; simpl; lia.
    + eapply Qle_trans; [exact H2|]. unfold Qle; simpl; lia.
  - apply round4_proper. q_minmax. lra.
  - intros Hlow. apply round4_proper. q_minmax. lra.
Qed.

Lemma music_mood_from_vad_shape_witness :
  exists focus danceability : Q,
    music_mood_from_vad 0.2 0.6 0.4 =
      [("valence", round4 0.2); ("energy", round4 0.6); ("focus", focus);
       ("danceability", danceability); ("tempo_pref", round4 0.6)] /\
    0.3 <= focus <= 1 /\ 0.35 <= danceability <= 0.9.
Proof.
  destruct (music_mood_from_vad_shape 0.2 0.6 0.4)
    as (f & dn & H1 & H2 & H3 & _);
    try (split; unfold Qle; simpl; lia).
  exists f, dn. repeat split; assumption || apply H2 || apply H3.
Defined.

(** X6. Focus never rises with arousal and never falls with dominance;
    danceability never falls with arousal or with valence.  The values are
    read with [.get(key, 0.5)]. *)
Theorem music_mood_from_vad_monotone (v a d v' a' d' : Q) :
  (a <= a' ->
   get_or_half (music_mood_from_vad v a' d) "focus"
     <= get_or_half (music_mood_from_vad v a d) "focus") /\
  (d <= d' ->
   get_or_half (music_mood_from_vad v a d) "focus"
     <= get_or_half (music_mood_from_vad v a d') "focus") /\
  (a <= a' ->
   get_or_half (music_mood_from_vad v a d) "danceability"
     <= get_or_half (music_mood_from_vad v a' d) "danceability") /\
  (v <= v' ->
   get_or_half (music_mood_from_vad v a d) "danceability"
     <= get_or_half (music_mood_from_vad v' a d) "danceability").
Proof.
  unfold music_mood_from_vad, get_or_half. simpl.
  repeat split; intros H; apply round4_mono; q_minmax; lra.
Qed.

Lemma music_mood_from_vad_monotone_witness :
  get_or_half (music_mood_from_vad 0.5 0.9 0.5) "focus"
    <= get_or_half (music_mood_from_vad 0.5 0.1 0.5) "focus".
Proof.
  apply (proj1 (music_mood_from_vad_monotone 0.5 0.1 0.5 0.5 0.9 0.5)).
  unfold Qle; simpl; lia.
Defined.






(** ** The lexicon *)

Local Close Scope Q_scope.

Lemma tokenize_words (s : string) : Forall is_word (tokenize s).
Proof.
  rewrite tokenize_findall.
  apply (maximal_runs_words (lower s)), findall_runs.
Qed.

Lemma join_words_inj (a b : list string) :
  Forall is_word a -> Forall is_word b -> join " " a = join " " b -> a = b.
Proof.
  intros Ha Hb H.
  rewrite <- (findall_join a Ha), <- (findall_join b Hb). now rewrite H.
Qed.

Lemma row_entry_words (row : csv_row) (t : list string) (e : VAD) :
  row_entry row = Some (t, e) ->
  Forall is_word t /\ t <> [] /\ unit_vad e /\
  t = tokenize (default EmptyString (row_term row)).
Proof.
  unfold row_entry.
  pose proof (tokenize_words (default EmptyString (row_term row))) as Hw.
  destruct (tokenize (default EmptyString (row_term row))) as [|first rest];
    [discriminate|].
  destruct (row_valence row) as [v|]; [|discriminate].
  destruct (row_arousal row) as [a|]; [|discriminate].
  destruct (row_dominance row) as [d|]; [|discriminate].
  intros [= <- <-]. split; [exact Hw|]. split; [discriminate|].
  split; [|reflexivity]. repeat split; apply _norm01_unit.
Qed.

(** The loop body of the loader in terms of [row_entry]. *)
Lemma load_row_entry (acc : gmap string VAD * lexicon_index) (row : csv_row) :
  load_row acc row =
    match row_entry row with
    | None => acc
    | Some (toks, e) =>
        (<[join " " toks := e]> (fst acc),
         if length toks <=? _max_ngram
         then index_insert (snd acc) (List.hd EmptyString toks) (length toks) toks e
         else snd acc)
    end.
Proof.
  unfold load_row, row_entry.
  pose proof (tokenize_lower_strip (default EmptyString (row_term row))) as Ht.
  destruct (lower (strip (default EmptyString (row_term row)))) as [|c s].
  - rewrite <- Ht. reflexivity.
  - rewrite Ht.
    destruct (tokenize (default EmptyString (row_term row))) as [|first rest];
      [reflexivity|].
    destruct (row_valence row) as [v|]; [|reflexivity].
    destruct (row_arousal row) as [a|]; [|reflexivity].
    destruct (row_dominance row) as [d|]; reflexivity.
Qed.

Lemma index_find_insert (idx : lexicon_index) (first : string)
    (rest toks : list string) (e : VAD) :
  index_find (index_insert idx first (length (first :: rest)) (first :: rest) e)
             toks =
    if decide (first :: rest = toks) then Some e else index_find idx toks.
Proof.
  unfold index_find, index_insert, index_get.
  destruct toks as [|f2 r2].
  - now destruct (decide (first :: rest = [])).
  - destruct (decide (first = f2)) as [<-|Hnf].
    + rewrite lookup_insert_eq.
      destruct (decide (length (first :: rest) = length (first :: r2)))
        as [Hlen|Hlen].
      * rewrite <- Hlen, lookup_insert_eq. simpl default.
        rewrite lookup_insert.
        destruct (decide (first :: rest = first :: r2)) as [Heq|Hne];
          [reflexivity|].
        destruct (idx !! first) as [bl|]; simpl; [reflexivity|].
        now rewrite !lookup_empty.
      * rewrite lookup_insert_ne by exact Hlen.
        destruct (decide (first :: rest = first :: r2)) as [Heq|Hne];
          [now rewrite Heq in Hlen|].
        destruct (idx !! first) as [bl|]; simpl; [reflexivity|].
        now rewrite !lookup_empty.
    + rewrite lookup_insert_ne by exact Hnf.
      destruct (decide (first :: rest = f2 :: r2)) as [Heq|Hne];
        [congruence | reflexivity].
Qed.

Lemma index_find_load_row (acc : gmap string VAD * lexicon_index)
    (row : csv_row) (toks : list string) :
  index_find (snd (load_row acc row)) toks =
    match row_entry row with
    | Some (t, e) =>
        if decide (t = toks)
        then (if length toks <=? _max_ngram then Some e
              else index_find (snd acc) toks)
        else index_find (snd acc) toks
    | None => index_find (snd acc) toks
    end.
Proof.
  rewrite load_row_entry.
  destruct (row_entry row) as [[t e]|] eqn:Hrow; [|reflexivity].
  destruct (row_entry_words row t e Hrow) as (_ & Hne & _).
  destruct t as [|first rest]; [contradiction|].
  cbn [snd List.hd].
  destruct (length (first :: rest) <=? _max_ngram) eqn:Hlen.
  - rewrite index_find_insert.
    destruct (decide (first :: rest = toks)) as [<-|Hd]; [|reflexivity].
    now rewrite Hlen.
  - destruct (decide (first :: rest = toks)) as [<-|Hd]; [|reflexivity].
    now rewrite Hlen.
Qed.

Lemma index_find_fold (rows : list csv_row)
    (acc : gmap string VAD * lexicon_index) (toks : list string) :
  index_find (snd (foldl load_row acc rows)) toks =
    if length toks <=? _max_ngram
    then lexicon_fold (index_find (snd acc) toks) rows toks
    else index_find (snd acc) toks.
Proof.
  revert acc. induction rows as [|row rows IH]; intros acc.
  - simpl. now destruct (length toks <=? _max_ngram).
  - cbn [foldl]. rewrite IH, index_find_load_row.
    unfold lexicon_fold. cbn [foldl].
    destruct (length toks <=? _max_ngram); [|
      destruct (row_entry row) as [[t e]|]; [destruct (decide (t = toks))|];
      reflexivity].
    destruct (row_entry row) as [[t e]|]; [|reflexivity].
    now destruct (decide (t = toks)).
Qed.

Lemma term_dict_load_row (acc : gmap string VAD * lexicon_index)
    (row : csv_row) (toks : list string) :
  Forall is_word toks ->
  fst (load_row acc row) !! join " " toks =
    match row_entry row with
    | Some (t, e) =>
        if decide (t = toks) then Some e else fst acc !! join " " toks
    | None => fst acc !! join " " toks
    end.
Proof.
  intros Hw. rewrite load_row_entry.
  destruct (row_entry row) as [[t e]|] eqn:Hrow; [|reflexivity].
  destruct (row_entry_words row t e Hrow) as (Ht & _).
  cbn [fst]. rewrite lookup_insert.
  destruct (decide (t = toks)) as [<-|Hd].
  - now rewrite decide_True.
  - rewrite decide_False; [reflexivity|].
    intros Hj. apply Hd. now apply join_words_inj.
Qed.

Lemma term_dict_fold (rows : list csv_row)
    (acc : gmap string VAD * lexicon_index) (toks : list string) :
  Forall is_word toks ->
  fst (foldl load_row acc rows) !! join " " toks =
    lexicon_fold (fst acc !! join " " toks) rows toks.
Proof.
  intros Hw. revert acc. induction rows as [|row rows IH]; intros acc.
  - reflexivity.
  - cbn [foldl]. rewrite IH, term_dict_load_row by exact Hw.
    unfold lexicon_fold. cbn [foldl].
    destruct (row_entry row) as [[t e]|]; [|reflexivity].
    now destruct (decide (t = toks)).
Qed.

Lemma load_initial (rows : list csv_row) :
  load_gitlab_vad rows initial_globals =
    {| _term_dict := fst (foldl load_row (∅, ∅) rows);
       _index_by_first := snd (foldl load_row (∅, ∅) rows) |}.
Proof. reflexivity. Qed.

Lemma phrase_at_index_find (idx : lexicon_index) (toks : list string)
    (i L : nat) :
  1 <= L -> i + L <= length toks ->
  phrase_at idx toks i L = index_find idx (take L (drop i toks)).
Proof.
  intros HL Hi. unfold phrase_at, index_find.
  destruct (lookup_lt_is_Some_2 toks i) as [first Hfirst]; [lia|].
  rewrite Hfirst.
  assert (Hlen : length (take L (drop i toks)) = L).
  { rewrite length_take, length_drop. lia. }
  destruct L as [|L]; [lia|].
  rewrite (drop_S toks first i Hfirst) in *.
  cbn [take] in *. now rewrite Hlen.
Qed.

Lemma index_insert_all (P : string -> nat -> list string -> VAD -> Prop)
    (idx : lexicon_index) (first : string) (L : nat) (toks : list string)
    (e : VAD) :
  index_all P idx -> P first L toks e ->
  index_all P (index_insert idx first L toks e).
Proof.
  intros Hidx He f by_len L' by_toks toks' e' Hf HL Ht.
  unfold index_insert in Hf.
  destruct (decide (first = f)) as [->|Hnf].
  - rewrite lookup_insert_eq in Hf. injection Hf as <-.
    destruct (decide (L = L')) as [->|HnL].
    + rewrite lookup_insert_eq in HL. injection HL as <-.
      destruct (decide (toks = toks')) as [->|Hnt].
      * rewrite lookup_insert_eq in Ht. now injection Ht as <-.
      * rewrite lookup_insert_ne in Ht by exact Hnt.
        destruct (idx !! f) as [bl|] eqn:Hbl; simpl in Ht;
          [|now rewrite lookup_empty in Ht].
        destruct (bl !! L') as [bt|] eqn:Hbt; simpl in Ht;
          [|now rewrite lookup_empty in Ht].
        exact (Hidx f bl L' bt toks' e' Hbl Hbt Ht).
    + rewrite lookup_insert_ne in HL by exact HnL.
      destruct (idx !! f) as [bl|] eqn:Hbl; simpl in HL;
        [|now rewrite lookup_empty in HL].
      exact (Hidx f bl L' by_toks toks' e' Hbl HL Ht).
  - rewrite lookup_insert_ne in Hf by exact Hnf.
    exact (Hidx f by_len L' by_toks toks' e' Hf HL Ht).
Qed.

Lemma load_row_keyed (acc : gmap string VAD * lexicon_index) (row : csv_row) :
  index_all keyed_entry (snd acc) ->
  index_all keyed_entry (snd (load_row acc row)).
Proof.
  intros Hacc. rewrite load_row_entry.
  destruct (row_entry row) as [[t e]|] eqn:Hrow; [|exact Hacc].
  destruct (row_entry_words row t e Hrow) as (Hw & Hne & He & _).
  cbn [snd].
  destruct (length t <=? _max_ngram) eqn:Hlen; [|exact Hacc].
  apply Nat.leb_le in Hlen.
  apply index_insert_all; [exact Hacc|].
  destruct t as [|first rest]; [contradiction|].
  repeat split; try assumption; simpl; try lia; apply He.
Qed.

Lemma load_fold_keyed (rows : list csv_row)
    (acc : gmap string VAD * lexicon_index) :
  index_all keyed_entry (snd acc) ->
  index_all keyed_entry (snd (foldl load_row acc rows)).
Proof.
  revert acc. induction rows as [|row rows IH]; intros acc Hacc; [exact Hacc|].
  cbn [foldl]. apply IH. now apply load_row_keyed.
Qed.

Lemma index_all_empty (P : string -> nat -> list string -> VAD -> Prop) :
  index_all P ∅.
Proof. intros f by_len L by_toks toks e Hf. now rewrite lookup_empty in Hf. Qed.

(** X9. In the state loaded from a file, the index entry of a phrase of at
    most four tokens, the [_term_dict] entry of any phrase and the matcher's
    lookup at any position and length are all the normalised triple of the
    last row of the file whose term has exactly these tokens, and nothing
    when no valid row has them; the index holds no longer phrase. *)
Theorem loaded_lexicon_lookup (rows : list csv_row) :
  let g := load_gitlab_vad rows initial_globals in
  (forall toks : list string,
      index_find (_index_by_first g) toks =
        if length toks <=? 4 then lexicon_last rows toks else None) /\
  (forall toks : list string,
      Forall is_word toks ->
      _term_dict g !! join " " toks = lexicon_last rows toks) /\
  (forall (text : list string) (i L : nat),
      1 <= L <= 4 -> i + L <= length text ->
      phrase_at (_index_by_first g) text i L =
        lexicon_last rows (take L (drop i text))).
Proof.
  intros g. unfold g. rewrite load_initial. cbn [_term_dict _index_by_first].
  assert (Hfind : forall toks : list string,
             index_find (snd (foldl load_row (∅, ∅) rows)) toks =
               if length toks <=? 4 then lexicon_last rows toks else None).
  { intros toks. rewrite index_find_fold. cbn [snd].
    assert (Hempty : index_find (∅ : lexicon_index) toks = None).
    { unfold index_find. destruct toks; [reflexivity|].
      now rewrite lookup_empty. }
    rewrite Hempty. reflexivity. }
  split; [exact Hfind|]. split.
  - intros toks Hw. rewrite term_dict_fold by exact Hw.
    cbn [fst]. now rewrite lookup_empty.
  - intros text i L HL Hi.
    rewrite phrase_at_index_find by lia. rewrite Hfind.
    rewrite length_take, length_drop.
    replace (L `min` (length text - i) <=? 4) with true; [reflexivity|].
    symmetry. apply Nat.leb_le. lia.
Qed.

Lemma loaded_lexicon_lookup_witness :
  let rows :=
    [ {| row_term := Some "Good"; row_valence := Some 0.2%Q;
         row_arousal := Some 0.2%Q; row_dominance := Some 0.2%Q |};
      {| row_term := Some " good! "; row_valence := Some 0.6%Q;
         row_arousal := Some 0.6%Q; row_dominance := Some 0.6%Q |} ] in
  phrase_at (_index_by_first (load_gitlab_vad rows initial_globals))
            ["so"; "good"] 1 1 =
    Some (_norm01 0.6, _norm01 0.6, _norm01 0.6).
Proof.
  intros rows.
  rewrite (proj2 (proj2 (loaded_lexicon_lookup rows)) ["so"; "good"] 1 1).
  - reflexivity.
  - lia.
  - simpl. lia.
Defined.

(** X10. Every entry stored in the loaded index sits under the first token
    and the length of its phrase, has one to four tokens, each a non-empty
    run of [[a-z']], holds a triple of the unit cube, and is the triple of
    the last row of the file with that phrase. *)
Theorem loaded_index_entries (rows : list csv_row) (f : string)
    (by_len : gmap nat (gmap (list string) VAD)) (L : nat)
    (by_toks : gmap (list string) VAD) (toks : list string) (e : VAD) :
  _index_by_first (load_gitlab_vad rows initial_globals) !! f = Some by_len ->
  by_len !! L = Some by_toks ->
  by_toks !! toks = Some e ->
  List.hd_error toks = Some f /\ length toks = L /\ 1 <= L <= 4 /\
  Forall is_word toks /\ unit_vad e /\ lexicon_last rows toks = Some e.
Proof.
  rewrite load_initial. cbn [_index_by_first]. intros Hf HL Ht.
  pose proof (load_fold_keyed rows (∅, ∅) (index_all_empty keyed_entry)
                f by_len L by_toks toks e Hf HL Ht)
    as (Hhd & Hlen & HL4 & Hw & He).
  repeat split; try assumption; try apply HL4; try apply He.
  pose proof (index_find_fold rows (∅, ∅) toks) as Hfind.
  destruct toks as [|first rest]; [discriminate|].
  injection Hhd as ->.
  unfold index_find at 1 in Hfind. rewrite Hf in Hfind.
  unfold index_get in Hfind. rewrite Hlen, HL in Hfind. simpl default in Hfind.
  rewrite Ht in Hfind.
  cbn [snd] in Hfind.
  unfold index_find in Hfind. rewrite lookup_empty in Hfind.
  replace (L <=? _max_ngram) with true in Hfind
    by (symmetry; apply Nat.leb_le; lia).
  now symmetry.
Qed.

Lemma loaded_index_entries_witness :
  List.hd_error ["not"; "good"] = Some "not" /\
  length ["not"; "good"] = 2 /\ 1 <= 2 <= 4 /\
  Forall is_word ["not"; "good"] /\
  unit_vad (_norm01 (-0.6), _norm01 0.2, _norm01 (-0.2)) /\
  lexicon_last
    [ {| row_term := Some "not good"; row_valence := Some (-0.6)%Q;
         row_arousal := Some 0.2%Q; row_dominance := Some (-0.2)%Q |} ]
    ["not"; "good"] =
    Some (_norm01 (-0.6), _norm01 0.2, _norm01 (-0.2)).
Proof.
  apply (loaded_index_entries
           [ {| row_term := Some "not good"; row_valence := Some (-0.6)%Q;
                row_arousal := Some 0.2%Q; row_dominance := Some (-0.2)%Q |} ]
           "not"
           {[ 2 := {[ ["not"; "good"] :=
                        (_norm01 (-0.6), _norm01 0.2, _norm01 (-0.2)) ]} ]}
           2
           {[ ["not"; "good"] := (_norm01 (-0.6), _norm01 0.2, _norm01 (-0.2)) ]}
           ["not"; "good"]);
    reflexivity.
Defined.

Lemma load_row_skipped (acc : gmap string VAD * lexicon_index) (row : csv_row) :
  row_entry row = None -> load_row acc row = acc.
Proof. intros H. now rewrite load_row_entry, H. Qed.

Lemma row_entry_none (row : csv_row) :
  tokenize (default EmptyString (row_term row)) = [] \/
  row_valence row = None \/ row_arousal row = None \/ row_dominance row = None ->
  row_entry row = None.
Proof.
  unfold row_entry. intros [H|[H|[H|H]]]; rewrite H.
  - reflexivity.
  - now destruct (tokenize _).
  - now destruct (tokenize _), (row_valence row).
  - now destruct (tokenize _), (row_valence row), (row_arousal row).
Qed.

(** X11. A row whose term holds no token, or one of whose three numeric
    cells is not a number, leaves no trace: loading the file with the row is
    loading it without. *)
Theorem skipped_row_changes_nothing (rows1 rows2 : list csv_row)
    (row : csv_row) (g : globals) :
  tokenize (default EmptyString (row_term row)) = [] \/
  row_valence row = None \/ row_arousal row = None \/ row_dominance row = None ->
  load_gitlab_vad (rows1 ++ row :: rows2) g = load_gitlab_vad (rows1 ++ rows2) g.
Proof.
  intros H. apply row_entry_none in H.
  unfold load_gitlab_vad. destruct (size (_term_dict g) =? 0); [|reflexivity].
  rewrite !foldl_app. cbn [foldl]. now rewrite (load_row_skipped _ row H).
Qed.

Lemma skipped_row_changes_nothing_witness :
  load_gitlab_vad
    ([ {| row_term := Some "good"; row_valence := Some 0.6%Q;
          row_arousal := Some 0.6%Q; row_dominance := Some 0.6%Q |} ] ++
     {| row_term := Some "bad"; row_valence := None;
        row_arousal := Some 0.1%Q; row_dominance := Some 0.1%Q |} :: [])
    initial_globals =
  load_gitlab_vad
    ([ {| row_term := Some "good"; row_valence := Some 0.6%Q;
          row_arousal := Some 0.6%Q; row_dominance := Some 0.6%Q |} ] ++ [])
    initial_globals.
Proof.
  apply skipped_row_changes_nothing. right. left. reflexivity.
Defined.

Lemma lexicon_fold_some (rows : list csv_row) (toks : list string)
    (init : option VAD) :
  is_Some init \/
  (exists row e, row ∈ rows /\ row_entry row = Some (toks, e)) ->
  is_Some (lexicon_fold init rows toks).
Proof.
  revert init. induction rows as [|r rows IH]; intros init H.
  - destruct H as [H|(row & e & Hin & _)]; [exact H|].
    now apply elem_of_nil in Hin.
  - unfold lexicon_fold. cbn [foldl]. apply IH.
    destruct H as [H|(row & e & Hin & Hrow)].
    + left. destruct (row_entry r) as [[t e]|]; [|exact H].
      destruct (decide (t = toks)); [eexists; reflexivity | exact H].
    + apply elem_of_cons in Hin as [<-|Hin].
      * left. rewrite Hrow. rewrite decide_True by reflexivity.
        eexists; reflexivity.
      * right. eauto.
Qed.

Lemma load_fold_nonempty (rows : list csv_row) :
  (exists row, row ∈ rows /\ is_Some (row_entry row)) ->
  size (fst (foldl load_row (∅, ∅) rows)) <> 0.
Proof.
  intros (row & Hin & [[t e] Hrow]) Hsize.
  apply map_size_empty_iff in Hsize.
  destruct (row_entry_words row t e Hrow) as (Hw & _).
  pose proof (term_dict_fold rows (∅, ∅) t Hw) as Hlook.
  rewrite Hsize, lookup_empty in Hlook.
  destruct (lexicon_fold_some rows t
              (fst ((∅, ∅) : gmap string VAD * lexicon_index) !! join " " t))
    as [x Hx]; [right; eauto|].
  rewrite Hx in Hlook. discriminate.
Qed.

Lemma load_fold_all_skipped (rows : list csv_row)
    (acc : gmap string VAD * lexicon_index) :
  Forall (fun row => row_entry row = None) rows ->
  foldl load_row acc rows = acc.
Proof.
  induction 1 as [|row rows Hrow _ IH]; [reflexivity|].
  cbn [foldl]. now rewrite (load_row_skipped acc row Hrow).
Qed.

Lemma load_gitlab_vad_idempotent (rows : list csv_row) (g : globals) :
  load_gitlab_vad rows (load_gitlab_vad rows g) = load_gitlab_vad rows g.
Proof.
  unfold load_gitlab_vad at 2 3.
  destruct (size (_term_dict g) =? 0) eqn:Hs.
  - unfold load_gitlab_vad. cbn [_term_dict].
    now destruct (size (fst (foldl load_row (∅, ∅) rows)) =? 0).
  - unfold load_gitlab_vad. now rewrite Hs.
Qed.

(** X12. Loading is done once: loading again from the same file changes
    nothing; a state whose [_term_dict] is not empty is never rebuilt, from
    whatever file; and a file with at least one valid row leaves such a
    state.  A file without a valid row leaves the initial state, so the next
    call reads the file again. *)
Theorem load_gitlab_vad_once (rows rows' : list csv_row) (g : globals) :
  load_gitlab_vad rows (load_gitlab_vad rows g) = load_gitlab_vad rows g /\
  (size (_term_dict g) <> 0 -> load_gitlab_vad rows' g = g) /\
  ((exists row, row ∈ rows /\ is_Some (row_entry row)) ->
   load_gitlab_vad rows' (load_gitlab_vad rows g) = load_gitlab_vad rows g) /\
  (Forall (fun row => row_entry row = None) rows ->
   load_gitlab_vad rows initial_globals = initial_globals).
Proof.
  assert (Hkeep : forall r g0, size (_term_dict g0) <> 0 ->
                               load_gitlab_vad r g0 = g0).
  { intros r g0 H. unfold load_gitlab_vad.
    destruct (size (_term_dict g0) =? 0) eqn:Hs; [|reflexivity].
    apply Nat.eqb_eq in Hs. contradiction. }
  split; [|split; [|split]].
  - apply load_gitlab_vad_idempotent.
  - apply Hkeep.
  - intros Hvalid. apply Hkeep. unfold load_gitlab_vad.
    destruct (size (_term_dict g) =? 0) eqn:Hs.
    + cbn [_term_dict]. now apply load_fold_nonempty.
    + now apply Nat.eqb_neq.
  - intros Hskip. rewrite load_initial.
    now rewrite (load_fold_all_skipped rows (∅, ∅) Hskip).
Qed.

Lemma load_gitlab_vad_once_witness :
  let rows :=
    [ {| row_term := Some "good"; row_valence := Some 0.6%Q;
         row_arousal := Some 0.6%Q; row_dominance := Some 0.6%Q |} ] in
  load_gitlab_vad [] (load_gitlab_vad rows initial_globals) =
    load_gitlab_vad rows initial_globals.
Proof.
  intros rows.
  apply (proj1 (proj2 (proj2 (load_gitlab_vad_once rows [] initial_globals)))).
  eexists. split; [apply list_elem_of_here|]. eexists. reflexivity.
Defined.

(** ** The matcher, again *)

Lemma count_key_app (k : string) (ms : list (string * VAD)) (m : string * VAD) :
  count_key k (ms ++ [m]) =
    count_key k ms + (if String.eqb (fst m) k then 1 else 0).
Proof.
  unfold count_key. rewrite List.filter_app, length_app. simpl.
  now destruct (String.eqb (fst m) k).
Qed.

Section MatcherFacts.

Variable idx : lexicon_index.
Variable toks : list string.

Lemma scan_step_tally (st : scan_state) :
  pos st < length toks -> counts_tally st ->
  counts_tally (scan_step idx toks st).
Proof.
  intros Hlt Hst.
  destruct (scan_step_cases idx toks st Hlt)
    as [(_ & Hc & Hm & _)|(L & e & _ & _ & _ & Heq)].
  - intros k. rewrite Hc, Hm. apply Hst.
  - rewrite Heq. intros k. cbn [counts matches].
    rewrite count_key_app. cbn [fst]. rewrite lookup_insert.
    destruct (decide (span_phrase toks (pos st, L) = k)) as [<-|Hne].
    + rewrite String.eqb_refl, (Hst (span_phrase toks (pos st, L))).
      destruct (count_key (span_phrase toks (pos st, L)) (matches st) =? 0)
        eqn:Hz.
      * apply Nat.eqb_eq in Hz. rewrite Hz. reflexivity.
      * simpl default.
        replace (count_key (span_phrase toks (pos st, L)) (matches st) + 1 =? 0)
          with false by (symmetry; apply Nat.eqb_neq; lia).
        f_equal. lia.
    + apply String.eqb_neq in Hne. rewrite Hne, Nat.add_0_r. apply Hst.
Qed.

Lemma scan_from_tally (fuel : nat) (st : scan_state) :
  counts_tally st -> counts_tally (scan_from idx toks fuel st).
Proof.
  revert st. induction fuel as [|fuel IH]; intros st Hst; simpl; [exact Hst|].
  destruct (pos st <? length toks) eqn:Hlt; [|exact Hst].
  apply Nat.ltb_lt in Hlt. apply IH. now apply scan_step_tally.
Qed.

Lemma scan_tally : counts_tally (scan idx toks).
Proof. apply scan_from_tally. intros k. reflexivity. Qed.

Lemma scan_from_hits (fuel : nat) (st : scan_state) :
  pos st <= length toks ->
  Forall (match_is_hit idx toks) (matches st) /\ length (matches st) <= pos st ->
  Forall (match_is_hit idx toks) (matches (scan_from idx toks fuel st)) /\
  length (matches (scan_from idx toks fuel st)) <= length toks.
Proof.
  revert st. induction fuel as [|fuel IH]; intros st Hle [Hhits Hlen]; simpl.
  - split; [exact Hhits | lia].
  - destruct (pos st <? length toks) eqn:Hlt; [|split; [exact Hhits | lia]].
    apply Nat.ltb_lt in Hlt.
    pose proof (scan_step_progress idx toks st Hlt) as Hprog.
    apply IH; [lia|].
    destruct (scan_step_cases idx toks st Hlt)
      as [(Hp & _ & Hm & _)|(L & e & HL & He & _ & Heq)].
    + rewrite Hm, Hp. split; [exact Hhits | lia].
    + rewrite Heq. cbn [matches pos]. split.
      * apply Forall_app. split; [exact Hhits|].
        constructor; [|constructor].
        exists (pos st), L. cbn [fst snd].
        repeat split; try assumption; unfold _max_ngram in *; lia.
      * rewrite length_app. simpl. lia.
Qed.

End MatcherFacts.

(** X13. After the scan the [Counter] holds, for every phrase, exactly the
    number of times the phrase was recorded, and no entry for a phrase that
    was not. *)
Theorem counter_tallies_matches (idx : lexicon_index) (toks : list string)
    (k : string) :
  counts (scan idx toks) !! k =
    if count_key k (matches (scan idx toks)) =? 0 then None
    else Some (count_key k (matches (scan idx toks))).
Proof. apply scan_tally. Qed.

(** X14. Every recorded match is a phrase of one to four tokens standing in
    the text, with the triple the index holds for it; there are at most as
    many matches as tokens. *)
Theorem matches_are_index_hits (idx : lexicon_index) (toks : list string) :
  Forall (match_is_hit idx toks) (matches (scan idx toks)) /\
  length (matches (scan idx toks)) <= length toks.
Proof.
  apply scan_from_hits; simpl; [lia|]. split; [constructor | lia].
Qed.

Local Open Scope Q_scope.

Lemma Q_of_nat_ge_1 (c : nat) : (1 <= c)%nat -> 1 <= Q_of_nat c.
Proof.
  intros H. unfold Q_of_nat. change 1 with (inject_Z 1).
  rewrite <- Zle_Qle. lia.
Qed.

Lemma Q_of_nat_S (n : nat) : Q_of_nat (S n) == 1 + Q_of_nat n.
Proof.
  unfold Q_of_nat. rewrite Nat2Z.inj_succ, <- Z.add_1_l, inject_Z_plus.
  reflexivity.
Qed.

Lemma add_match_weight (cnt : gmap string nat) (ms : list (string * VAD))
    (acc : Q * Q * Q * Q) :
  Forall (fun m => (1 <= default 0%nat (cnt !! fst m))%nat) ms ->
  fst (fst (fst acc)) + Q_of_nat (length ms)
    <= fst (fst (fst (foldl (add_match cnt) acc ms))).
Proof.
  intros Hms. revert acc.
  induction Hms as [|[key [[v a] d]] ms Hc _ IH]; intros [[[w sv] sa] sd].
  - cbn [foldl length fst]. change (Q_of_nat 0) with 0. lra.
  - cbn [foldl]. eapply Qle_trans; [|apply IH].
    cbn [length]. rewrite Q_of_nat_S.
    cbn [add_match fst snd]. cbn [fst] in Hc.
    pose proof (Q_of_nat_ge_1 _ Hc). simpl. lra.
Qed.

Lemma count_key_elem (m : string * VAD) (ms : list (string * VAD)) :
  m ∈ ms -> (1 <= count_key (fst m) ms)%nat.
Proof.
  unfold count_key. induction 1 as [m ms|m m' ms _ IH]; simpl.
  - rewrite String.eqb_refl. simpl. lia.
  - destruct (String.eqb (fst m') (fst m)); simpl; lia.
Qed.

Lemma tally_counts_positive (st : scan_state) :
  counts_tally st ->
  Forall (fun m => (1 <= default 0%nat (counts st !! fst m))%nat) (matches st).
Proof.
  intros Hst. apply Forall_forall. intros m Hm.
  apply count_key_elem in Hm. rewrite (Hst (fst m)).
  destruct (count_key (fst m) (matches st) =? 0)%nat eqn:Hz; simpl.
  - apply Nat.eqb_eq in Hz. lia.
  - exact Hm.
Qed.

Lemma aggregate_some (cnt : gmap string nat) (ms : list (string * VAD)) :
  ms <> [] ->
  Forall (fun m => (1 <= default 0%nat (cnt !! fst m))%nat) ms ->
  is_Some (aggregate cnt ms).
Proof.
  intros Hne Hms. unfold aggregate.
  destruct ms as [|m ms']; [contradiction|].
  pose proof (add_match_weight cnt (m :: ms') (0, 0, 0, 0) Hms) as Hw.
  destruct (foldl (add_match cnt) (0, 0, 0, 0) (m :: ms'))
    as [[[w sv] sa] sd].
  cbn [fst length] in Hw. rewrite Q_of_nat_S in Hw.
  pose proof (Q_of_nat_nonneg (length ms')) as Hn.
  destruct (Qeq_bool w 0) eqn:Hz; [|eexists; reflexivity].
  apply Qeq_bool_iff in Hz. lra.
Qed.

(** X15. The matcher returns [None] exactly when the scan recorded no match:
    with a match recorded the total weight is at least 1, so the test
    [sum_w == 0] never succeeds. *)
Theorem vad_absent_iff_no_match (idx : lexicon_index) (toks : list string) :
  vad_of_tokens idx toks = None <-> matches (scan idx toks) = [].
Proof.
  split; [|apply vad_of_tokens_no_match].
  intros Hnone.
  destruct (matches (scan idx toks)) as [|m ms] eqn:Hm; [reflexivity|].
  exfalso. unfold vad_of_tokens in Hnone.
  destruct toks as [|t toks']; [discriminate|].
  destruct (aggregate_some (counts (scan idx (t :: toks')))
                           (matches (scan idx (t :: toks')))) as [e He].
  - now rewrite Hm.
  - apply tally_counts_positive, scan_tally.
  - rewrite He in Hnone. discriminate.
Qed.

Lemma vad_absent_iff_no_match_witness :
  vad_of_tokens ∅ ["unknown"; "words"] = None.
Proof.
  apply (proj2 (vad_absent_iff_no_match ∅ ["unknown"; "words"])). reflexivity.
Defined.





(** X17. Whatever the matcher returns is a triple of multiples of 1/10000
    between 0 and 1, provided the index holds triples of the unit cube (as
    the empty index and every loaded index do). *)
Theorem vad_result_four_places (rows : list csv_row) (g : globals)
    (text : string) (v a d : Q) :
  index_unit (_index_by_first g) ->
  snd (vad_from_text_gitlab rows g text) = Some (v, a, d) ->
  exists nv na nd : Z,
    v = nv # 10000 /\ a = na # 10000 /\ d = nd # 10000 /\
    (0 <= nv <= 10000)%Z /\ (0 <= na <= 10000)%Z /\ (0 <= nd <= 10000)%Z.
Proof.
  intros Hg Hv. cbn [vad_from_text_gitlab snd] in Hv.
  pose proof (vad_of_tokens_unit _ _ _ (load_gitlab_vad_unit rows g Hg) Hv)
    as (Hv1 & Ha1 & Hd1).
  cbn [fst snd] in Hv1, Ha1, Hd1.
  unfold vad_of_tokens in Hv.
  destruct (tokenize text) as [|t toks]; [discriminate|].
  unfold aggregate in Hv.
  destruct (matches (scan _ (t :: toks))) as [|m ms]; [discriminate|].
  destruct (foldl _ _ _) as [[[w sv] sa] sd].
  destruct (Qeq_bool w 0); [discriminate|].
  injection Hv as <- <- <-.
  unfold round4 in *. do 3 eexists.
  repeat split; try reflexivity;
    unfold Qle in *; simpl in *; lia.
Qed.

Lemma vad_result_four_places_witness :
  let rows :=
    [ {| row_term := Some "good"; row_valence := Some 0.6;
         row_arousal := Some 0.2; row_dominance := Some 0.4 |} ] in
  exists nv na nd : Z,
    (8000 # 10000) = nv # 10000 /\ (6000 # 10000) = na # 10000 /\
    (7000 # 10000) = nd # 10000 /\
    (0 <= nv <= 10000)%Z /\ (0 <= na <= 10000)%Z /\ (0 <= nd <= 10000)%Z.
Proof.
  intros rows.
  apply (vad_result_four_places rows initial_globals "so good").
  - intros f by_len L by_toks toks e Hf. simpl in Hf.
    now rewrite lookup_empty in Hf.
  - reflexivity.
Defined.

(** ** The route, again *)





Lemma infer_text_nonblank_state (rows : list csv_row) (g : globals)
    (nlp : option (string -> option (list (string * Q)))) (text : string) :
  strip text <> EmptyString ->
  fst (infer_text rows g nlp text) = load_gitlab_vad rows g.
Proof.
  intros Hne. unfold infer_text.
  destruct (strip text) as [|c s]; [contradiction|].
  destruct (snd (vad_from_text_gitlab rows g (String c s))) as [[[v a] d]|];
    destruct (classify_emotions nlp (String c s)); reflexivity.
Qed.



Lemma infer_text_classifier_ext (rows : list csv_row) (g : globals)
    (nlp1 nlp2 : option (string -> option (list (string * Q))))
    (text : string) :
  classify_emotions nlp1 (strip text) = classify_emotions nlp2 (strip text) ->
  infer_text rows g nlp1 text = infer_text rows g nlp2 text.
Proof.
  intros H. unfold infer_text.
  destruct (strip text) as [|c s]; [reflexivity|]. now rewrite H.
Qed.

(** X19. A classifier that raises on the text, or returns no score, gives
    exactly the result of having no classifier: no emotions, and a source
    that is "VAD-gitlab" or "default". *)
Theorem classifier_failure_is_absence (rows : list csv_row) (g : globals)
    (classify : string -> option (list (string * Q))) (text : string) :
  classify (strip text) = None \/ classify (strip text) = Some [] ->
  infer_text rows g (Some classify) text = infer_text rows g None text /\
  emotions (snd (infer_text rows g (Some classify) text)) = [] /\
  In (source (snd (infer_text rows g (Some classify) text)))
     ["VAD-gitlab"; "default"].
Proof.
  intros H.
  assert (Hext : infer_text rows g (Some classify) text =
                 infer_text rows g None text).
  { apply infer_text_classifier_ext. unfold classify_emotions.
    destruct H as [-> | ->]; reflexivity. }
  rewrite Hext. split; [reflexivity|].
  unfold infer_text. destruct (strip text) as [|c s].
  - split; [reflexivity|]. simpl. tauto.
  - cbn [classify_emotions].
    destruct (snd (vad_from_text_gitlab rows g (String c s))) as [[[v a] d]|];
      (split; [reflexivity | simpl; tauto]).
Qed.

Lemma classifier_failure_is_absence_witness :
  infer_text [] initial_globals (Some (fun _ => None)) "hello" =
    infer_text [] initial_globals None "hello".
Proof.
  apply (classifier_failure_is_absence [] initial_globals (fun _ => None) "hello").
  left. reflexivity.
Defined.

Lemma dict_get_set {V : Type} (d : list (string * V)) (k k' : string) (v : V) :
  dict_get (dict_set d k v) k' =
    if String.eqb k' k then Some v else dict_get d k'.
Proof.
  induction d as [|[k0 v0] d IH]; simpl.
  - reflexivity.
  - destruct (String.eqb k k0) eqn:Hk; simpl.
    + apply String.eqb_eq in Hk. subst k0.
      now destruct (String.eqb k' k).
    + rewrite IH. destruct (String.eqb k' k0) eqn:Hk0; [|reflexivity].
      apply String.eqb_eq in Hk0. subst k0.
      destruct (String.eqb k' k) eqn:Hkk; [|reflexivity].
      apply String.eqb_eq in Hkk. subst k'.
      rewrite String.eqb_refl in Hk. discriminate.
Qed.

Lemma dict_set_keys_in {V : Type} (d : list (string * V)) (k x : string) (v : V) :
  x ∈ dict_keys (dict_set d k v) -> x = k \/ x ∈ dict_keys d.
Proof.
  unfold dict_keys. induction d as [|[k0 v0] d IH]; simpl.
  - intros H. apply list_elem_of_singleton in H. now left.
  - destruct (String.eqb k k0) eqn:Hk; simpl; intros H.
    + apply String.eqb_eq in Hk. subst k0. now right.
    + apply elem_of_cons in H as [->|H].
      * right. apply list_elem_of_here.
      * destruct (IH H) as [->|Hin]; [now left|].
        right. now apply list_elem_of_further.
Qed.

Lemma dict_set_nodup {V : Type} (d : list (string * V)) (k : string) (v : V) :
  NoDup (dict_keys d) -> NoDup (dict_keys (dict_set d k v)).
Proof.
  unfold dict_keys. induction d as [|[k0 v0] d IH]; simpl; intros Hnd.
  - apply NoDup_singleton.
  - apply NoDup_cons in Hnd as [Hnotin Hnd].
    destruct (String.eqb k k0) eqn:Hk; simpl.
    + apply String.eqb_eq in Hk. subst k0. now apply NoDup_cons.
    + apply NoDup_cons. split; [|now apply IH].
      intros Hin. apply (dict_set_keys_in d k k0 v) in Hin as [->|Hin].
      * rewrite String.eqb_refl in Hk. discriminate.
      * contradiction.
Qed.

(** X20. The emotion distribution built from the classifier's scores has
    each lowercased label once; the score it keeps for a label is the last
    one the classifier gave under that label, letter case aside. *)
Theorem emotions_last_score_wins (scores : list (string * Q)) :
  NoDup (dict_keys (emotions_of_scores scores)) /\
  forall k : string,
    dict_get (emotions_of_scores scores) k = last_score scores k.
Proof.
  unfold emotions_of_scores, last_score.
  assert (H : forall d : list (string * Q),
             NoDup (dict_keys d) ->
             NoDup (dict_keys
                      (foldl (fun d ls => dict_set d (lower (fst ls)) (snd ls))
                             d scores)) /\
             forall k,
               dict_get (foldl (fun d ls => dict_set d (lower (fst ls)) (snd ls))
                               d scores) k =
                 foldl (fun acc ls =>
                          if String.eqb k (lower (fst ls)) then Some (snd ls)
                          else acc)
                       (dict_get d k) scores).
  { induction scores as [|[l p] scores IH]; intros d Hd.
    - split; [exact Hd | reflexivity].
    - cbn [foldl fst snd].
      destruct (IH (dict_set d (lower l) p) (dict_set_nodup d (lower l) p Hd))
        as [Hnd Hget].
      split; [exact Hnd|]. intros k. rewrite Hget. now rewrite dict_get_set. }
  apply (H []). apply NoDup_nil_2.
Qed.

Lemma infer_text_index_ext (rows : list csv_row) (g1 g2 : globals)
    (nlp : option (string -> option (list (string * Q)))) (text : string) :
  _index_by_first (load_gitlab_vad rows g1) =
    _index_by_first (load_gitlab_vad rows g2) ->
  snd (infer_text rows g1 nlp text) = snd (infer_text rows g2 nlp text).
Proof.
  intros H. unfold infer_text.
  destruct (strip text) as [|c s]; [reflexivity|].
  unfold vad_from_text_gitlab. cbn [snd fst]. rewrite H.
  destruct (vad_of_tokens _ _) as [[[v a] d]|];
    destruct (classify_emotions nlp (String c s)); reflexivity.
Qed.

Lemma infer_text_state (rows : list csv_row) (g : globals)
    (nlp : option (string -> option (list (string * Q)))) (text : string) :
  fst (infer_text rows g nlp text) = g \/
  fst (infer_text rows g nlp text) = load_gitlab_vad rows g.
Proof.
  destruct (strip text) eqn:Hs.
  - left. unfold infer_text. now rewrite Hs.
  - right. apply infer_text_nonblank_state. rewrite Hs. discriminate.
Qed.

(** X21. The result of a call does not depend on the calls made before it
    with the same lexicon file: from the state an earlier call left, the
    route answers as it does from the state that call started in. *)
Theorem infer_text_repeatable (rows : list csv_row) (g : globals)
    (nlp nlp' : option (string -> option (list (string * Q))))
    (text text' : string) :
  snd (infer_text rows (fst (infer_text rows g nlp' text')) nlp text) =
    snd (infer_text rows g nlp text).
Proof.
  apply infer_text_index_ext.
  destruct (infer_text_state rows g nlp' text') as [-> | ->]; [reflexivity|].
  now rewrite load_gitlab_vad_idempotent.
Qed.

Lemma vad_of_tokens_rounded (idx : lexicon_index) (toks : list string)
    (v a d : Q) :
  vad_of_tokens idx toks = Some (v, a, d) ->
  round4 v = v /\ round4 a = a /\ round4 d = d.
Proof.
  unfold vad_of_tokens, aggregate.
  destruct toks as [|t toks]; [discriminate|].
  destruct (matches (scan idx (t :: toks))) as [|m ms]; [discriminate|].
  destruct (foldl _ _ _) as [[[w sv] sa] sd].
  destruct (Qeq_bool w 0); [discriminate|].
  intros [= <- <- <-]. repeat split; apply round4_idempotent.
Qed.

(** X22. When the lexicon matched and there is no emotion distribution, the
    source is "VAD-gitlab" and the mood repeats the VAD triple: valence is
    V, energy and tempo_pref are both A, unchanged by the rounding. *)
Theorem lexicon_only_mood_mirrors_vad (rows : list csv_row) (g : globals)
    (nlp : option (string -> option (list (string * Q)))) (text : string)
    (v a d : Q) :
  let r := snd (infer_text rows g nlp text) in
  vad r = Some (v, a, d) -> emotions r = [] ->
  source r = "VAD-gitlab" /\
  mood r = music_mood_from_vad v a d /\
  dict_get (mood r) "valence" = Some v /\
  dict_get (mood r) "energy" = Some a /\
  dict_get (mood r) "tempo_pref" = Some a.
Proof.
  intros r Hvad Hems.
  pose proof (infer_text_cases rows g nlp text) as Hcases.
  pose proof (infer_text_vad rows g nlp text) as Hv.
  fold r in Hcases, Hv. simpl in Hcases.
  rewrite Hvad in Hcases, Hv. rewrite Hems in Hcases.
  destruct Hcases as [Hsrc Hmood].
  symmetry in Hv. apply vad_of_tokens_rounded in Hv as (Hrv & Hra & Hrd).
  rewrite Hmood. unfold music_mood_from_vad. simpl.
  rewrite Hrv, Hra. repeat split; assumption || reflexivity.
Qed.

Lemma lexicon_only_mood_mirrors_vad_witness :
  let rows :=
    [ {| row_term := Some "good"; row_valence := Some 0.6;
         row_arousal := Some 0.2; row_dominance := Some 0.4 |} ] in
  let r := snd (infer_text rows initial_globals None "so good") in
  source r = "VAD-gitlab" /\
  mood r = music_mood_from_vad (8000 # 10000) (6000 # 10000) (7000 # 10000) /\
  dict_get (mood r) "valence" = Some (8000 # 10000) /\
  dict_get (mood r) "energy" = Some (6000 # 10000) /\
  dict_get (mood r) "tempo_pref" = Some (6000 # 10000).
Proof.
  intros rows r.
  apply (lexicon_only_mood_mirrors_vad rows initial_globals None "so good");
    reflexivity.
Defined.

(** ** The classifier variable *)

Lemma get_pipeline_calls_kept {P : Type} (creates : list (option P)) (p : P) :
  get_pipeline_calls creates (Some p) = Some p.
Proof.
  unfold get_pipeline_calls. induction creates as [|c creates IH];
    [reflexivity | exact IH].
Qed.

(** X23. [get_pipeline] returns what it leaves in [_hf_pipeline]; over any
    run of calls the variable ends as the first classifier that could be
    built: a failed build is tried again at the next call, a built
    classifier is never replaced. *)
Theorem get_pipeline_keeps_first {P : Type} (creates : list (option P)) :
  (forall (create st : option P),
      snd (get_pipeline create st) = fst (get_pipeline create st)) /\
  get_pipeline_calls creates None = first_created creates /\
  (forall p : P, get_pipeline_calls creates (Some p) = Some p).
Proof.
  split; [|split].
  - intros create [p|]; reflexivity.
  - induction creates as [|[p|] creates IH].
    + reflexivity.
    + apply (get_pipeline_calls_kept creates p).
    + exact IH.
  - apply get_pipeline_calls_kept.
Qed.

(** ** The emotion projection, again *)

(** X24. The mood of the result follows the four cases of the blender: the
    blend of the two projections with weight 0.4 on the emotion side when
    there are a VAD triple and emotions, the VAD projection with a triple
    alone, the emotion projection with emotions alone, the default mood
    with neither. *)
Theorem blender_policy_moods (rows : list csv_row) (g : globals)
    (nlp : option (string -> option (list (string * Q)))) (text : string) :
  let r := snd (infer_text rows g nlp text) in
  mood r =
    match vad r, emotions r with
    | Some (v, a, d), _ :: _ =>
        blend_moods (mood_from_emotions (emotions r))
                    (music_mood_from_vad v a d) 0.4
    | Some (v, a, d), [] => music_mood_from_vad v a d
    | None, _ :: _ => mood_from_emotions (emotions r)
    | None, [] => DEFAULT_MOOD
    end.
Proof.
  intros r. pose proof (infer_text_cases rows g nlp text) as Hcases.
  fold r in Hcases. simpl in Hcases.
  destruct (vad r) as [[[v a] d]|]; destruct (emotions r);
    now destruct Hcases as [_ ->].
Qed.

Lemma emotion_agg_unknown (e : list (string * Q)) :
  Forall (fun kv => dict_get EMOTION_TO_MOOD (fst kv) = None) e ->
  emotion_agg e = map (fun k => (k, 0)) (dict_keys DEFAULT_MOOD).
Proof.
  unfold emotion_agg.
  generalize (map (fun k => (k, 0%Q)) (dict_keys DEFAULT_MOOD)) as agg.
  intros agg Hun. revert agg.
  induction Hun as [|[lab p] e Hl _ IH]; intros agg; [reflexivity|].
  cbn [foldl]. cbn [fst] in Hl. now rewrite (agg_add_unknown agg lab p Hl).
Qed.

(** X25. A distribution that is not empty but holds no label of
    [EMOTION_TO_MOOD] projects to 0.0 in every dimension, not to the
    default mood. *)
Theorem unrecognized_labels_give_zero_mood (e : list (string * Q)) :
  e <> [] ->
  Forall (fun kv => dict_get EMOTION_TO_MOOD (fst kv) = None) e ->
  mood_from_emotions e = map (fun k => (k, 0 # 10000)) MOOD_KEYS.
Proof.
  intros Hne Hun. rewrite (mood_from_emotions_eq e Hne).
  rewrite (emotion_agg_unknown e Hun).
  apply List.map_ext_in. intros k Hk. f_equal.
  apply (round4_proper _ 0).
  simpl in Hk. unfold agg_get.
  destruct Hk as [<-|[<-|[<-|[<-|[<-|[]]]]]]; simpl; apply Qmult_0_l.
Qed.

Lemma unrecognized_labels_give_zero_mood_witness :
  mood_from_emotions [("boredom", 0.7); ("awe", 0.3)] =
    map (fun k => (k, 0 # 10000)) MOOD_KEYS.
Proof.
  apply (unrecognized_labels_give_zero_mood [("boredom", 0.7); ("awe", 0.3)]).
  - discriminate.
  - repeat constructor.
Defined.

(** X26. A distribution with a single label of [EMOTION_TO_MOOD], under any
    positive probability, projects to the row of that label, rounded. *)
Theorem single_label_gives_its_row (label : string) (p : Q)
    (row : list (string * Q)) :
  dict_get EMOTION_TO_MOOD label = Some row -> 0 < p ->
  mood_from_emotions [(label, p)] =
    map (fun k => (k, round4 (agg_get row k))) MOOD_KEYS.
Proof.
  intros Hrow Hp.
  rewrite mood_from_emotions_eq by discriminate.
  assert (Htot : emotion_totalsum [(label, p)] == p).
  { rewrite emotion_totalsum_nonzero; unfold emotion_sum; simpl; lra. }
  assert (Hstep : forall x : Q,
             (0 + p * x) / emotion_totalsum [(label, p)] == x).
  { intros x. rewrite Htot. field. lra. }
  unfold emotion_agg. cbn [foldl]. unfold agg_add. rewrite Hrow.
  pose proof Hrow as Hcase. unfold EMOTION_TO_MOOD, dict_get in Hcase.
  repeat (destruct (String.eqb label _);
          [ injection Hcase as <-; unfold MOOD_KEYS, agg_get; simpl;
            repeat (apply f_equal2;
                    [apply f_equal; apply round4_proper; apply Hstep|]);
            reflexivity | ]).
  discriminate.
Qed.

Lemma single_label_gives_its_row_witness :
  mood_from_emotions [("sadness", 0.3)] =
    [("valence", 1000 # 10000); ("energy", 2000 # 10000);
     ("focus", 6000 # 10000); ("danceability", 3000 # 10000);
     ("tempo_pref", 3500 # 10000)].
Proof.
  rewrite (single_label_gives_its_row "sadness" 0.3
             [("valence", 0.1); ("energy", 0.2); ("focus", 0.6);
              ("danceability", 0.3); ("tempo_pref", 0.35)]).
  - reflexivity.
  - reflexivity.
  - reflexivity.
Defined.





